(** * habitica_planner: the recursive task model and the push walk

    A shallow embedding of [src/habitica_planner/planner.py].  The class
    [Task] is a record, its constructor [Task.__init__] a function from the
    decoded YAML value to a task or an exception, [Task.__iter__] a function
    back to a decoded value, and [Task.push] a walk over the tree that
    threads the state of the remote service and a log of what was called and
    what was assigned. *)

From Stdlib Require Import List String Ascii Bool Arith ZArith QArith Lia.
Import ListNotations.
Set Warnings "-register-all".

Local Close Scope Q_scope.
Local Open Scope string_scope.
Local Open Scope list_scope.

(** ** Decoded documents

    What [yaml.load] hands to the program, and what the remote service
    answers with: scalars, sequences and mappings.  A Python [float] is
    represented by the rational it denotes, or by one of its special values.
    Mapping keys are text, as the annotation [name: str] of the constructor
    asks; a mapping keeps its items in insertion order, its keys distinct. *)

Inductive pyfloat : Type :=
| Fnan
| Finf (negative : bool)
| Ffin (q : Q).

Inductive value : Type :=
| VNone
| VBool (b : bool)
| VInt (z : Z)
| VFloat (f : pyfloat)
| VStr (s : string)
| VList (items : list value)
| VDict (items : list (string * value)).

(** [bool(v)]: the truth value Python gives to [v] in [if v:]. *)
Definition truthy (v : value) : bool :=
  match v with
  | VNone => false
  | VBool b => b
  | VInt z => negb (Z.eqb z 0)
  | VFloat Fnan => true
  | VFloat (Finf _) => true
  | VFloat (Ffin q) => negb (Qeq_bool q 0)
  | VStr s => negb (String.eqb s EmptyString)
  | VList l => match l with [] => false | _ => true end
  | VDict l => match l with [] => false | _ => true end
  end.

(** [v == n] for a finite number [n]: [bool] is a subclass of [int], numbers
    compare by value across [int] and [float], everything else differs. *)
Definition py_eq_num (v : value) (n : Q) : bool :=
  match v with
  | VBool b => Qeq_bool (inject_Z (Z.b2z b)) n
  | VInt z => Qeq_bool (inject_Z z) n
  | VFloat (Ffin q) => Qeq_bool q n
  | _ => false
  end.

(** [isinstance(v, (list, int, float))]. *)
Definition is_list_int_float (v : value) : bool :=
  match v with
  | VList _ | VInt _ | VBool _ | VFloat _ => true
  | _ => false
  end.

(** ** Exceptions

    The three [ValueError]s of the constructor are told apart by what they
    report.  [RemoteError] stands for whatever the client raises when a call
    fails.  [OutOfFuel] is not a Python exception: it marks a walk cut short
    by the counter of [push_fuel], which [push_at] never is. *)

Inductive value_error : Type :=
| StrangeDict (e : value)
| InvalidPriority (task_name : option string) (got : value)
| UnexpectedElement (e : value).

Inductive exn : Type :=
| ValueError (why : value_error)
| AttributeError (attr : string)
| KeyError (key : value)
| IndexError (index : nat)
| TypeError
| RemoteError (why : string)
| OutOfFuel.

Inductive result (A : Type) : Type :=
| Ok (a : A)
| Err (e : exn).
Arguments Ok {A} a.
Arguments Err {A} e.

Definition bind {A B : Type} (r : result A) (k : A -> result B) : result B :=
  match r with
  | Ok a => k a
  | Err e => Err e
  end.

Notation "x <- r ;; k" := (bind r (fun x => k))
  (at level 61, r at next level, right associativity).

Definition raises {A : Type} (r : result A) : Prop := exists e, r = Err e.

(** ** The class [Task] *)

Inductive Task : Type := mkTask {
  name : option string;
  checklist : list Task;
  priority : value;
  id : value;
  checklist_id : value
}.

Definition default_priority : value := VFloat (Ffin 1).

(** The five assignments that open [__init__]. *)
Definition new_Task (nm : option string) : Task :=
  {| name := nm; checklist := []; priority := default_priority;
     id := VNone; checklist_id := VNone |}.

Definition set_priority (v : value) (t : Task) : Task :=
  {| name := name t; checklist := checklist t; priority := v;
     id := id t; checklist_id := checklist_id t |}.

Definition set_id (v : value) (t : Task) : Task :=
  {| name := name t; checklist := checklist t; priority := priority t;
     id := v; checklist_id := checklist_id t |}.

Definition set_checklist_id (v : value) (t : Task) : Task :=
  {| name := name t; checklist := checklist t; priority := priority t;
     id := id t; checklist_id := v |}.

Definition set_checklist (cl : list Task) (t : Task) : Task :=
  {| name := name t; checklist := cl; priority := priority t;
     id := id t; checklist_id := checklist_id t |}.

(** [self.checklist.append(child)]. *)
Definition append_child (child : Task) (t : Task) : Task :=
  set_checklist (checklist t ++ [child]) t.

(** [if self.name:] -- the name when it is neither [None] nor empty. *)
Definition named (t : Task) : option string :=
  match name t with
  | Some s => if String.eqb s EmptyString then None else Some s
  | None => None
  end.

(** [e[k] in [0.5, 1, 1.5, 2]]. *)
Definition valid_priorities : list Q := [1 # 2; 1; 3 # 2; 2]%Q.

Definition priority_ok (v : value) : bool :=
  existsb (py_eq_num v) valid_priorities.

(** [k in ['id', 'checklist_id']] followed by [setattr(self, k, e[k])]. *)
Definition record_identifier (k : string) (v : value) (self : Task) : Task :=
  if String.eqb k "id" then set_id v self
  else if String.eqb k "checklist_id" then set_checklist_id v self
  else self.

(** The body of [for e in data:], with the constructor it calls for nested
    definitions as a parameter.  [Task(e)] for a text element runs the
    constructor on the default [data = 1.0], which is not a list: the child
    is [set_priority 1.0 (new_Task e)]. *)
Definition init_elements (init : option string -> value -> result Task)
    (nm : option string) : Task -> list value -> result Task :=
  fix loop (self : Task) (data : list value) {struct data} : result Task :=
    match data with
    | [] => Ok self
    | e :: rest =>
        match e with
        | VStr s =>
            loop (append_child
                    (set_priority default_priority (new_Task (Some s))) self)
                 rest
        | VDict items =>
            match items with
            | [(k, v)] =>
                if String.eqb k "priority" then
                  if priority_ok v then loop (set_priority v self) rest
                  else Err (ValueError (InvalidPriority nm v))
                else
                  let self := record_identifier k v self in
                  if is_list_int_float v then
                    child <- init (Some k) v ;;
                    loop (append_child child self) rest
                  else Err (ValueError (UnexpectedElement e))
            | _ => Err (ValueError (StrangeDict e))
            end
        | _ => loop self rest
        end
    end.

(** [Task.__init__(self, name, data)]. *)
Fixpoint Task_init (nm : option string) (data : value) {struct data}
    : result Task :=
  match data with
  | VList es => init_elements Task_init nm (new_Task nm) es
  | _ => Ok (set_priority data (new_Task nm))
  end.

(** [getattr(self, prop)] for the three properties [__iter__] walks. *)
Definition prop_value (self : Task) (prop : string) : value :=
  if String.eqb prop "id" then id self
  else if String.eqb prop "checklist_id" then checklist_id self
  else priority self.

(** The first loop of [__iter__]: one single-key mapping for each of
    [id], [checklist_id], [priority] whose value is truthy. *)
Definition own_entries (self : Task) : list value :=
  flat_map
    (fun prop =>
       let val := prop_value self prop in
       if truthy val then [VDict [(prop, val)]] else [])
    ["id"; "checklist_id"; "priority"].

(** [list(self)], that is [Task.__iter__] run to its end. *)
Fixpoint Task_iter (self : Task) : list value :=
  (match named self with
   | Some _ => own_entries self
   | None => []
   end)
  ++ flat_map
       (fun task =>
          match named task with
          | Some n => [VDict [(n, VList (Task_iter task))]]
          | None => []
          end)
       (checklist self).

Definition is_None (v : value) : bool :=
  match v with
  | VNone => true
  | _ => false
  end.

(** [Task.is_new], with the attribute its loop iterates as a parameter.
    A [Task] has the attributes [name], [checklist], [priority], [id] and
    [checklist_id]; the only one that holds tasks is [checklist], and
    looking up a name the object does not have raises [AttributeError]
    before the first iteration.  [n = n and task.is_new()] calls
    [task.is_new()] only while [n] is true. *)
Fixpoint is_new_over (attr : string) (self : Task) {struct self}
    : result bool :=
  let n := match named self with
           | Some _ => is_None (id self)
           | None => true
           end in
  if String.eqb attr "checklist" then
    (fix loop (n : bool) (tasks : list Task) {struct tasks} : result bool :=
       match tasks with
       | [] => Ok n
       | task :: rest =>
           if n then (b <- is_new_over attr task ;; loop b rest)
           else loop n rest
       end) n (checklist self)
  else Err (AttributeError attr).

(** [Task.is_new] as the source has it: [for task in self.checklists]. *)
Definition is_new : Task -> result bool := is_new_over "checklists".

(** ** Induction over nested structures *)

Section TaskInduction.
Variable P : Task -> Prop.
Hypothesis step :
  forall nm cl pr i ci, Forall P cl -> P (mkTask nm cl pr i ci).

Fixpoint Task_nested_ind (t : Task) : P t :=
  match t with
  | mkTask nm cl pr i ci =>
      step nm cl pr i ci
        ((fix all (l : list Task) : Forall P l :=
            match l with
            | [] => Forall_nil P
            | c :: r => Forall_cons c (Task_nested_ind c) (all r)
            end) cl)
  end.
End TaskInduction.

Section ValueInduction.
Variable P : value -> Prop.
Hypothesis on_none : P VNone.
Hypothesis on_bool : forall b, P (VBool b).
Hypothesis on_int : forall z, P (VInt z).
Hypothesis on_float : forall f, P (VFloat f).
Hypothesis on_str : forall s, P (VStr s).
Hypothesis on_list : forall l, Forall P l -> P (VList l).
Hypothesis on_dict :
  forall l, Forall (fun kv => P (snd kv)) l -> P (VDict l).

Fixpoint value_nested_ind (v : value) : P v :=
  match v with
  | VNone => on_none
  | VBool b => on_bool b
  | VInt z => on_int z
  | VFloat f => on_float f
  | VStr s => on_str s
  | VList l =>
      on_list l
        ((fix all (l : list value) : Forall P l :=
            match l with
            | [] => Forall_nil P
            | x :: r => Forall_cons x (value_nested_ind x) (all r)
            end) l)
  | VDict l =>
      on_dict l
        ((fix all (l : list (string * value))
            : Forall (fun kv => P (snd kv)) l :=
            match l with
            | [] => Forall_nil _
            | (k, x) :: r =>
                Forall_cons (k, x) (value_nested_ind x) (all r)
            end) l)
  end.
End ValueInduction.

(** ** Vocabulary of the statements about construction *)

(** The value of a [{"priority": v}] element, for elements of that form. *)
Definition priority_entry (e : value) : option value :=
  match e with
  | VDict [(k, v)] => if String.eqb k "priority" then Some v else None
  | _ => None
  end.

Definition priority_values (es : list value) : list value :=
  flat_map
    (fun e => match priority_entry e with Some v => [v] | None => [] end) es.

Definition without_priority_entries (es : list value) : list value :=
  filter
    (fun e => match priority_entry e with Some _ => false | None => true end)
    es.

(** Elements the loop of the constructor looks at: text and mappings. *)
Definition text_or_mapping (e : value) : bool :=
  match e with
  | VStr _ | VDict _ => true
  | _ => false
  end.

(** The documents the constructor refuses, described by the element at
    fault: somewhere in the sequence, or in the sequence nested under a
    single-key mapping that is not a priority entry, there is a mapping
    whose number of keys is [bad_size], a priority entry with a value that
    is not accepted, or a single-key mapping whose value is neither a
    sequence nor a number. *)
Inductive rejected (bad_size : nat -> Prop) : value -> Prop :=
| rejected_size : forall es items,
    In (VDict items) es -> bad_size (List.length items) ->
    rejected bad_size (VList es)
| rejected_priority : forall es v,
    In (VDict [("priority", v)]) es -> priority_ok v = false ->
    rejected bad_size (VList es)
| rejected_type : forall es k v,
    In (VDict [(k, v)]) es -> k <> "priority" ->
    is_list_int_float v = false ->
    rejected bad_size (VList es)
| rejected_nested : forall es k v,
    In (VDict [(k, v)]) es -> k <> "priority" ->
    rejected bad_size v ->
    rejected bad_size (VList es).

(** Two readings of the faulty number of keys. *)
Definition several_keys (n : nat) : Prop := 1 < n.
Definition not_one_key (n : nat) : Prop := n <> 1.

(** ** Vocabulary of the statements about whole trees *)

(** A tree without its identifiers: names, priorities and children, in
    order, are kept; [id] and [checklist_id] are forgotten everywhere. *)
Fixpoint skeleton (t : Task) : Task :=
  {| name := name t;
     checklist := map skeleton (checklist t);
     priority := priority t;
     id := VNone;
     checklist_id := VNone |}.

(** A task below the root that text and priority entries can describe and
    that serialization can write back: a name that is not empty and is not
    the key [priority], one of the accepted priorities, no identifiers, and
    children of the same kind. *)
Fixpoint entry_task (t : Task) : bool :=
  match name t with
  | Some s => negb (String.eqb s EmptyString) && negb (String.eqb s "priority")
  | None => false
  end
  && is_None (id t) && is_None (checklist_id t)
  && priority_ok (priority t)
  && forallb entry_task (checklist t).

Definition identifier_key (s : string) : bool :=
  String.eqb s "id" || String.eqb s "checklist_id".

Definition identifier_named (t : Task) : bool :=
  match name t with
  | Some s => identifier_key s
  | None => false
  end.

(** No task below [t] is called [id] or [checklist_id]. *)
Fixpoint identifier_free_names (t : Task) : bool :=
  forallb (fun c => negb (identifier_named c) && identifier_free_names c)
    (checklist t).

(** What parsing the serialization of one task under its own name gives
    back: a task of the same shape, and the same task when no name below it
    is an identifier key. *)
Definition parses_back (c : Task) : Prop :=
  forall n, name c = Some n ->
    exists c',
      Task_init (Some n) (VList (Task_iter c)) = Ok c' /\
      skeleton c' = skeleton c /\
      (identifier_free_names c = true -> c' = c).

(** ** The remote service and the rest of the outside world

    [Task.push] talks to the Habitica client [api], calls the built-in
    [str] on the priority, and takes the text of its note from the gettext
    catalogue.  None of them belongs to this program: they are the fields
    of an interface, and every statement about [push] holds for each of its
    implementations.  A call of the client changes the state of the
    service and either returns the decoded answer or raises. *)
Record Outside : Type := {
  service : Type;
  (** [api.tasks.user.post(type=, text=, notes=, priority=)] *)
  tasks_user_post :
    string -> string -> string -> string -> service ->
    result value * service;
  (** [api.tasks[task_id].checklist.post(text=)] *)
  tasks_checklist_post :
    value -> string -> service -> result value * service;
  (** [str(v)] *)
  py_str : value -> string;
  (** the note, translated, dedented and put on one line *)
  note : string
}.

(** [v[k]] for a text key. *)
Definition getitem (v : value) (k : string) : result value :=
  match v with
  | VDict items =>
      match find (fun kv => String.eqb (fst kv) k) items with
      | Some kv => Ok (snd kv)
      | None => Err (KeyError (VStr k))
      end
  | _ => Err TypeError
  end.

(** [v[n]] for a number that is not negative: the entry of index [n] of a
    sequence, counted from 0, or the character of that index of a text; a
    mapping has text keys only. *)
Definition getindex (v : value) (n : nat) : result value :=
  match v with
  | VList items =>
      match nth_error items n with
      | Some x => Ok x
      | None => Err (IndexError n)
      end
  | VStr s =>
      match String.get n s with
      | Some c => Ok (VStr (String c EmptyString))
      | None => Err (IndexError n)
      end
  | VDict _ => Err (KeyError (VInt (Z.of_nat n)))
  | _ => Err TypeError
  end.

(** [resp['checklist'][task_number]['id']]. *)
Definition checklist_entry_id (resp : value) (task_number : nat)
    : result value :=
  cl <- getitem resp "checklist" ;;
  item <- getindex cl task_number ;;
  getitem item "id".

(** What is appended to the name of a task to make the text of the todo;
    the two quotation marks of the source are written by their code. *)
Definition quotation_mark : string :=
  String (Ascii.ascii_of_nat 34) EmptyString.

Definition progress_marker : string :=
  ("  ![progress](http://progressed.io/bar/0 " ++ quotation_mark
   ++ "progress" ++ quotation_mark ++ ")")%string.

(** ** The walk and its log

    A task is identified by its position: the indices of the children to
    go through from the root.  The log keeps, in the order of execution,
    every call of the client with its arguments and its outcome and every
    assignment to [id] or [checklist_id]; an item call and the assignment to
    a [checklist_id] name the parent that runs the loop and the index of the
    child.  The positions are there for the statements, the program does
    not compute with them. *)
Definition path : Type := list nat.

Inductive event : Type :=
| CreateTask (p : path) (text notes prio : string) (resp : result value)
| AssignId (p : path) (v : value)
| CreateChecklistItem (parent : path) (child : nat) (task_id : value)
    (text : string) (resp : result value)
| AssignChecklistId (parent : path) (child : nat) (v : value).

Record state (W : Outside) : Type := {
  remote : service W;
  log : list event
}.
Arguments remote {W} s.
Arguments log {W} s.

(** Where a part of the walk stopped: the tasks as the assignments left
    them, the exception that ended it if one did, and the state reached. *)
Record outcome (W : Outside) (A : Type) : Type := {
  res : A;
  raised : option exn;
  after : state W
}.
Arguments res {W A} o.
Arguments raised {W A} o.
Arguments after {W A} o.

Section Push.
Context (W : Outside).

Definition record (e : event) (s : state W) : state W :=
  {| remote := remote s; log := log s ++ [e] |}.

Definition post_task (p : path) (text notes prio : string) (s : state W)
    : result value * state W :=
  let (r, a) := tasks_user_post W "todo" text notes prio (remote s) in
  (r, {| remote := a; log := log s ++ [CreateTask p text notes prio r] |}).

Definition post_checklist_item (p : path) (i : nat) (task_id : value)
    (text : string) (s : state W) : result value * state W :=
  let (r, a) := tasks_checklist_post W task_id text (remote s) in
  (r, {| remote := a;
         log := log s ++ [CreateChecklistItem p i task_id text r] |}).

(** The loop [for task in self.checklist:] inside [if self.name:];
    [i] is the index of the head of [tasks] in the checklist. *)
Fixpoint post_checklist (p : path) (self_id : value) (task_number i : nat)
    (tasks : list Task) (s : state W) : outcome W (list Task) :=
  match tasks with
  | [] => {| res := []; raised := None; after := s |}
  | task :: rest =>
      match named task with
      | Some text =>
          let task_number := S task_number in
          let (r, s1) := post_checklist_item p i self_id text s in
          match (resp <- r ;; checklist_entry_id resp task_number) with
          | Err e => {| res := task :: rest; raised := Some e; after := s1 |}
          | Ok v =>
              let s2 := record (AssignChecklistId p i v) s1 in
              let o := post_checklist p self_id task_number (S i) rest s2 in
              {| res := set_checklist_id v task :: res o;
                 raised := raised o; after := after o |}
          end
      | None =>
          let o := post_checklist p self_id task_number (S i) rest s in
          {| res := task :: res o; raised := raised o; after := after o |}
      end
  end.

(** The loop [for task in Progress(self.checklist): task.push(api)];
    [Progress] hands over the tasks of the list, in order. *)
Fixpoint push_each (push : path -> Task -> state W -> outcome W Task)
    (p : path) (i : nat) (tasks : list Task) (s : state W)
    : outcome W (list Task) :=
  match tasks with
  | [] => {| res := []; raised := None; after := s |}
  | task :: rest =>
      let o := push (p ++ [i]) task s in
      match raised o with
      | Some e => {| res := res o :: rest; raised := Some e; after := after o |}
      | None =>
          let os := push_each push p (S i) rest (after o) in
          {| res := res o :: res os; raised := raised os; after := after os |}
      end
  end.

(** One call of [Task.push], given the function [push] it calls on the
    children. *)
Definition push_body (push : path -> Task -> state W -> outcome W Task)
    (p : path) (self : Task) (s : state W) : outcome W Task :=
  match named self with
  | Some nm =>
      let text := (nm ++ progress_marker)%string in
      let (r, s1) :=
        post_task p text (note W) (py_str W (priority self)) s in
      match (resp <- r ;; getitem resp "id") with
      | Err e => {| res := self; raised := Some e; after := s1 |}
      | Ok v =>
          let self := set_id v self in
          let s2 := record (AssignId p v) s1 in
          let o := post_checklist p (id self) 0 0 (checklist self) s2 in
          let self := set_checklist (res o) self in
          match raised o with
          | Some e => {| res := self; raised := Some e; after := after o |}
          | None =>
              let os := push_each push p 0 (checklist self) (after o) in
              {| res := set_checklist (res os) self;
                 raised := raised os; after := after os |}
          end
      end
  | None =>
      let os := push_each push p 0 (checklist self) s in
      {| res := set_checklist (res os) self;
         raised := raised os; after := after os |}
  end.

(** [Task.push] calls itself on tasks whose [checklist_id] it has just
    assigned, so the recursion is on the number of nested calls still
    allowed; [push_at] allows as many as the tree is high, which
    [push_at_unfold] below shows to be enough. *)
Fixpoint push_fuel (fuel : nat) (p : path) (self : Task) (s : state W)
    : outcome W Task :=
  match fuel with
  | 0 => {| res := self; raised := Some OutOfFuel; after := s |}
  | S fuel => push_body (push_fuel fuel) p self s
  end.
End Push.

Fixpoint height (t : Task) : nat :=
  S (fold_right (fun c m => Nat.max (height c) m) 0 (checklist t)).

(** [self.push(api)] for the task at position [p]. *)
Definition push_at (W : Outside) (p : path) (self : Task) (s : state W)
    : outcome W Task :=
  push_fuel W (height self) p self s.

(** [t.push(self.api)] as [PushData.main] calls it, on the root. *)
Definition push (W : Outside) (self : Task) (s : state W) : outcome W Task :=
  push_at W [] self s.

(** ** The plan of a walk

    What a call of [push] does to the outside and to the tree, without the
    data: the steps, each with the position of the task whose call of [push]
    takes it. *)
Inductive step : Type :=
| DoCreateTask (p : path)
| DoAssignId (p : path)
| DoCreateChecklistItem (parent : path) (child : nat)
| DoAssignChecklistId (parent : path) (child : nat).

Definition step_of (e : event) : step :=
  match e with
  | CreateTask p _ _ _ _ => DoCreateTask p
  | AssignId p _ => DoAssignId p
  | CreateChecklistItem p i _ _ _ => DoCreateChecklistItem p i
  | AssignChecklistId p i _ => DoAssignChecklistId p i
  end.

Definition owner (x : step) : path :=
  match x with
  | DoCreateTask p | DoAssignId p => p
  | DoCreateChecklistItem p _ | DoAssignChecklistId p _ => p
  end.

(** [f i a ++ f (i+1) b ++ ...] over a list [a; b; ...]. *)
Definition concat_indexed {A B : Type} (f : nat -> A -> list B)
    : nat -> list A -> list B :=
  fix go (i : nat) (l : list A) {struct l} : list B :=
    match l with
    | [] => []
    | a :: r => f i a ++ go (S i) r
    end.

Definition is_named (t : Task) : bool :=
  match named t with
  | Some _ => true
  | None => false
  end.

Definition item_steps (p : path) : nat -> list Task -> list step :=
  concat_indexed
    (fun i c =>
       if is_named c
       then [DoCreateChecklistItem p i; DoAssignChecklistId p i]
       else []).

(** Pre-order, in document order: the task itself, then an item for each
    named child, then the children one after the other, each of them in the
    same way. *)
Fixpoint preorder (p : path) (t : Task) : list step :=
  (if is_named t
   then DoCreateTask p :: DoAssignId p :: item_steps p 0 (checklist t)
   else [])
  ++ concat_indexed (fun i c => preorder (p ++ [i]) c) 0 (checklist t).

(** A part of the walk that starts in [s] and ends in [s'], with or without
    an exception, follows a plan when what it appended to the log is a
    beginning of the plan, and the whole of it when it ended normally. *)
Definition follows {W : Outside} (plan : list step) (s s' : state W)
    (exc : option exn) : Prop :=
  exists new rest,
    log s' = log s ++ new /\
    map step_of new ++ rest = plan /\
    (exc = None -> rest = []).

(** A function that can stand for [push] in the loop over the children:
    it keeps the shape of the task and follows the plan of its walk. *)
Definition walks (W : Outside)
    (push : path -> Task -> state W -> outcome W Task) : Prop :=
  forall q c s,
    skeleton (res (push q c s)) = skeleton c /\
    follows (preorder q c) s (after (push q c s)) (raised (push q c s)).

(** [x] is a step of a task strictly below the task at [p]. *)
Definition below (p : path) (x : step) : Prop :=
  exists i r, owner x = p ++ i :: r.

(** The order the claim on the walk asks for: the creation of a task before
    the items of its checklist, and these before every step taken below. *)
Definition must_precede (a b : step) : Prop :=
  (exists p i, a = DoCreateTask p /\ b = DoCreateChecklistItem p i) \/
  (exists p i, a = DoCreateChecklistItem p i /\ below p b).

(** [x] may stand before [y] in a plan. *)
Definition in_order (x y : step) : Prop := x <> y /\ ~ must_precede y x.

Definition is_assignment (x : step) : bool :=
  match x with
  | DoAssignId _ | DoAssignChecklistId _ _ => true
  | _ => false
  end.

Definition is_create_task (x : step) : bool :=
  match x with
  | DoCreateTask _ => true
  | _ => false
  end.




(** ** A service to run the walk on

    A stand-in for the client, for the statements that need one that
    answers: the identifier of a task is made of its text, and the
    answer to an item call lists enough items for the index [push] reads. *)
Definition demo_str (v : value) : string :=
  match v with
  | VInt 1 => "1"
  | VInt 2 => "2"
  | VFloat (Ffin q) =>
      if Qeq_bool q 1 then "1.0"
      else if Qeq_bool q (1 # 2) then "0.5"
      else if Qeq_bool q (3 # 2) then "1.5"
      else if Qeq_bool q 2 then "2.0"
      else "?"
  | _ => "?"
  end.

Definition demo : Outside :=
  {| service := nat;
     tasks_user_post := fun _ text _ _ n =>
       (Ok (VDict [("id", VStr ("task:" ++ text)%string)]), S n);
     tasks_checklist_post := fun _ text n =>
       (Ok (VDict [("checklist",
                    VList (map (fun _ => VDict [("id", VStr ("item:" ++ text)%string)])
                             (seq 0 (n + 2))))]),
        S n);
     py_str := demo_str;
     note := "Please, do not edit this by hand!" |}.

Definition demo_start : state demo :=
  {| remote := (0 : service demo); log := [] |}.

(** A second stand-in, one that keeps the checklists: the answer to an
    item call lists the entries of the checklist of the task, those every
    checklist starts with ([before]) and then the items added to it so
    far, the new one last.  The identifier of an entry is made of its
    text, so that the entries of an answer differ. *)
Definition ledger_entry (text : string) : value :=
  VDict [("text", VStr text); ("id", VStr ("item:" ++ text)%string)].

Definition ledger_key (task_id : value) : string :=
  match task_id with
  | VStr k => k
  | _ => EmptyString
  end.

Definition ledger (before : list string) : Outside :=
  {| service := list (string * string);
     tasks_user_post := fun _ text _ _ items =>
       (Ok (VDict [("id", VStr ("task:" ++ text)%string)]), items);
     tasks_checklist_post := fun task_id text items =>
       let items := items ++ [(ledger_key task_id, text)] in
       (Ok (VDict
              [("checklist",
                VList
                  (map ledger_entry
                     (before
                      ++ map snd
                           (filter
                              (fun it =>
                                 String.eqb (fst it) (ledger_key task_id))
                              items))))]),
        items);
     py_str := demo_str;
     note := "Please, do not edit this by hand!" |}.

Definition ledger_start (before : list string) : state (ledger before) :=
  {| remote := ([] : service (ledger before)); log := [] |}.


(** The identifiers the service hands out are never falsy. *)
Definition truthy_identifiers (W : Outside) : Prop :=
  (forall ty text notes prio a resp a' v,
      tasks_user_post W ty text notes prio a = (Ok resp, a') ->
      getitem resp "id" = Ok v -> truthy v = true) /\
  (forall task_id text a resp a' k v,
      tasks_checklist_post W task_id text a = (Ok resp, a') ->
      checklist_entry_id resp k = Ok v -> truthy v = true).

(** The document of the end-to-end example and the tree it parses to. *)
Definition example_document : value :=
  VList [VStr "Buy milk";
         VDict [("Clean house",
                 VList [VStr "Vacuum"; VStr "Dishes";
                        VDict [("priority", VInt 2)]])]].

Definition example_tree : Task :=
  mkTask None
    [mkTask (Some "Buy milk") [] default_priority VNone VNone;
     mkTask (Some "Clean house")
       [mkTask (Some "Vacuum") [] default_priority VNone VNone;
        mkTask (Some "Dishes") [] default_priority VNone VNone]
       (VInt 2) VNone VNone]
    default_priority VNone VNone.

(** The second task of the example, with its two subtasks. *)
Definition clean_house : Task :=
  mkTask (Some "Clean house")
    [mkTask (Some "Vacuum") [] default_priority VNone VNone;
     mkTask (Some "Dishes") [] default_priority VNone VNone]
    (VInt 2) VNone VNone.

(** The task found at a position below [t]. *)
Fixpoint at_path (t : Task) (p : path) {struct p} : option Task :=
  match p with
  | [] => Some t
  | i :: r =>
      match nth_error (checklist t) i with
      | Some c => at_path c r
      | None => None
      end
  end.

(** An assignment logged by the push of the task at [p0] is still in
    place in [t], the task that push left: the field it names, in the task
    it names, holds the value it stored.  Calls say nothing of the tree. *)
Definition in_place (p0 : path) (t : Task) (ev : event) : Prop :=
  match ev with
  | AssignId q v =>
      exists r n, q = p0 ++ r /\ at_path t r = Some n /\ id n = v
  | AssignChecklistId q i v =>
      exists r n,
        q = p0 ++ r /\ at_path t (r ++ [i]) = Some n /\ checklist_id n = v
  | _ => True
  end.

(** A function that can stand for [push] in the loop over the children,
    does not touch the [checklist_id] of the task it is called on, and
    leaves every assignment it logs in place. *)
Definition keeps (W : Outside)
    (push : path -> Task -> state W -> outcome W Task) : Prop :=
  forall q c s,
    checklist_id (res (push q c s)) = checklist_id c /\
    exists new,
      log (after (push q c s)) = log s ++ new /\
      Forall (in_place q (res (push q c s))) new.

(** What a push may have done to the [id] of the task [n] found at [p],
    [n'] being the task found there afterwards and [new] what the push
    has logged: nothing, or, the task being named, the assignment the
    log has for it. *)
Definition id_spared (new : list event) (p : path) (n n' : Task) : Prop :=
  id n' = id n \/ (is_named n = true /\ In (AssignId p (id n')) new).

(** The same for the [checklist_id] of the task found at [r] below [c],
    the task pushed at [q]: nothing, or, the task and its parent being
    named, the assignment the log has for it. *)
Definition checklist_id_spared (new : list event) (q : path) (c : Task)
    (r : path) (n n' : Task) : Prop :=
  checklist_id n' = checklist_id n \/
  (is_named n = true /\
   exists r0 i pn,
     r = r0 ++ [i] /\ at_path c r0 = Some pn /\ is_named pn = true /\
     In (AssignChecklistId (q ++ r0) i (checklist_id n')) new).

(** A function that can stand for [push] in the loop over the children and
    leaves every [id] and [checklist_id] it has no assignment for as it
    found it. *)
Definition spares (W : Outside)
    (push : path -> Task -> state W -> outcome W Task) : Prop :=
  forall q c s,
    exists new,
      log (after (push q c s)) = log s ++ new /\
      forall r n,
        at_path c r = Some n ->
        exists n',
          at_path (res (push q c s)) r = Some n' /\
          id_spared new (q ++ r) n n' /\
          checklist_id_spared new q c r n n'.

(** What [is_new] is meant to compute: no named task of the tree has an
    [id]. *)
Fixpoint all_unpushed (t : Task) : bool :=
  (if is_named t then is_None (id t) else true)
  && forallb all_unpushed (checklist t).

(** * More of the program

    ** Vocabulary of further statements about construction *)

(** The name an element of a sequence gives to the child it creates, for
    the elements that create one when the constructor accepts them: text,
    and single-key mappings other than a priority entry. *)
Definition entry_name (e : value) : option string :=
  match e with
  | VStr s => Some s
  | VDict [(k, v)] => if String.eqb k "priority" then None else Some k
  | _ => None
  end.

Definition entry_names (es : list value) : list (option string) :=
  flat_map
    (fun e => match entry_name e with Some s => [Some s] | None => [] end) es.

(** No mapping of the document, at any depth, has the key [id] or
    [checklist_id]. *)
Fixpoint no_identifier_keys (d : value) : bool :=
  match d with
  | VList es => forallb no_identifier_keys es
  | VDict items =>
      forallb
        (fun kv =>
           match kv with
           | (k, v) => negb (identifier_key k) && no_identifier_keys v
           end) items
  | _ => true
  end.

(** No task of the tree has an [id] or a [checklist_id]. *)
Fixpoint unidentified (t : Task) : bool :=
  is_None (id t) && is_None (checklist_id t)
  && forallb unidentified (checklist t).

(** Every task of the tree, the task itself apart, has a priority among
    0.5, 1, 1.5 and 2. *)
Fixpoint valid_priorities_below (t : Task) : bool :=
  forallb (fun c => priority_ok (priority c) && valid_priorities_below c)
    (checklist t).

(** No mapping of the document, at any depth, gives a number to a name:
    the values of single-key mappings other than priority entries are
    sequences. *)
Fixpoint no_scalar_priorities (d : value) : bool :=
  match d with
  | VList es => forallb no_scalar_priorities es
  | VDict items =>
      forallb
        (fun kv =>
           match kv with
           | (k, v) =>
               String.eqb k "priority"
               || match v with
                  | VList _ => no_scalar_priorities v
                  | _ => false
                  end
           end) items
  | _ => true
  end.

(** ** Vocabulary of further statements about serialization *)

(** A text that is not empty, as the identifiers of the service are. *)
Definition text_identifier (v : value) : bool :=
  match v with
  | VStr s => negb (String.eqb s EmptyString)
  | _ => false
  end.

(** A named task that holds a text identifier, or has such a task among
    the named tasks below it. *)
Fixpoint writes_text_identifier (c : Task) : bool :=
  is_named c
  && (text_identifier (id c) || text_identifier (checklist_id c)
      || existsb writes_text_identifier (checklist c)).


(** ** Vocabulary of further statements about the walk *)

(** The number of named tasks of a tree. *)
Fixpoint count_named (t : Task) : nat :=
  (if is_named t then 1 else 0) + list_sum (map count_named (checklist t)).



(** Every identifier the service hands out passes the test [P]. *)
Definition identifiers_pass (W : Outside) (P : value -> bool) : Prop :=
  (forall ty text notes prio a resp a' v,
      tasks_user_post W ty text notes prio a = (Ok resp, a') ->
      getitem resp "id" = Ok v -> P v = true) /\
  (forall task_id text a resp a' k v,
      tasks_checklist_post W task_id text a = (Ok resp, a') ->
      checklist_entry_id resp k = Ok v -> P v = true).

(** Every named task of the tree has an [id] that passes [P], and so has
    the [checklist_id] of every named task whose parent is named;
    [under_named] tells whether the parent of [t] is. *)
Fixpoint identified (P : value -> bool) (under_named : bool) (t : Task)
    : bool :=
  (if is_named t
   then P (id t) && (if under_named then P (checklist_id t) else true)
   else true)
  && forallb (identified P (is_named t)) (checklist t).

(** A function that can stand for [push] in the loop over the children
    and, when it ends normally against a service whose identifiers pass
    [P], leaves the task identified, provided the [checklist_id] was seen
    to by the parent. *)
Definition identifies (W : Outside) (P : value -> bool)
    (push : path -> Task -> state W -> outcome W Task) : Prop :=
  forall q c s b,
    raised (push q c s) = None ->
    (b = true -> is_named c = true -> P (checklist_id c) = true) ->
    identified P b (res (push q c s)) = true.

(** A log in which every call was answered and is followed at once by the
    assignment of the identifier read in its answer. *)
Inductive paired : list event -> Prop :=
| paired_nil : paired []
| paired_task : forall p text notes prio resp v rest,
    getitem resp "id" = Ok v -> paired rest ->
    paired (CreateTask p text notes prio (Ok resp) :: AssignId p v :: rest)
| paired_item : forall p i task_id text resp k v rest,
    checklist_entry_id resp k = Ok v -> paired rest ->
    paired (CreateChecklistItem p i task_id text (Ok resp)
            :: AssignChecklistId p i v :: rest).

(** The call [ev] is where the exception [e] comes from: the service
    raised it, or reading the identifier in its answer did. *)
Definition failed_call (e : exn) (ev : event) : Prop :=
  match ev with
  | CreateTask _ _ _ _ r =>
      r = Err e \/ exists resp, r = Ok resp /\ getitem resp "id" = Err e
  | CreateChecklistItem _ _ _ _ r =>
      r = Err e \/
      exists resp k, r = Ok resp /\ checklist_entry_id resp k = Err e
  | _ => False
  end.

(** A part of the walk from [s] to [s'] that stops at the first failure:
    what it logged is paired, up to the call that failed when an exception
    ended it. *)
Definition stops_at_failure {W : Outside} (s s' : state W)
    (exc : option exn) : Prop :=
  exists new,
    log s' = log s ++ new /\
    match exc with
    | None => paired new
    | Some e =>
        exists done ev, new = done ++ [ev] /\ paired done /\ failed_call e ev
    end.

(** ** The listing and the preview *)

Definition newline : string := String "010"%char EmptyString.

(** [s * n] *)
Fixpoint times (s : string) (n : nat) : string :=
  match n with
  | 0 => EmptyString
  | S n => (s ++ times s n)%string
  end.

(** [Task.pretty_string]; [str] is the text ['({})'.format] makes of the
    priority.  The dash, the priority and the deeper indentation depend on
    the name being [None] or not, the line break before the children on
    its being truthy. *)
Fixpoint pretty_string (str : value -> string) (self : Task) (ind : nat)
    {struct self} : string :=
  let res := times "    " ind in
  let name_ :=
    match name self with
    | None => EmptyString
    | Some n => ("- " ++ n)%string
    end in
  let priority_ :=
    match name self with
    | None => EmptyString
    | Some _ => ("(" ++ str (priority self) ++ ")")%string
    end in
  let ind := ind + match name self with None => 0 | Some _ => 1 end in
  let res := (res ++ name_ ++ priority_)%string in
  let cl :=
    String.concat newline
      (map (fun x => pretty_string str x ind) (checklist self)) in
  (res ++ (if String.eqb cl EmptyString then EmptyString
           else (if is_named self then newline else EmptyString) ++ cl)
  )%string.

(** Every task below [t] has a name that is neither [None] nor empty. *)
Fixpoint named_below (t : Task) : bool :=
  forallb (fun c => is_named c && named_below c) (checklist t).

(** The tasks that have a name, each with its depth, in document order;
    a task without a name does not count as a level. *)
Fixpoint rows (t : Task) (ind : nat) : list (nat * Task) :=
  match name t with
  | Some _ => (ind, t) :: flat_map (fun c => rows c (S ind)) (checklist t)
  | None => flat_map (fun c => rows c ind) (checklist t)
  end.

(** The line of a task at depth [d]. *)
Definition line (str : value -> string) (r : nat * Task) : string :=
  (times "    " (fst r) ++ "- "
   ++ match name (snd r) with Some n => n | None => EmptyString end
   ++ "(" ++ str (priority (snd r)) ++ ")")%string.

(** The two templates of [will_be_pushed], translated and filled in: the
    heading of a task, made from the task, and the line of a checklist
    item, made from the name of a child, [None] included. *)
Record Messages : Type := {
  task_heading : Task -> string;
  item_heading : option string -> string
}.

(** [Task.will_be_pushed]. *)
Fixpoint will_be_pushed (M : Messages) (self : Task) {struct self}
    : string :=
  let res := EmptyString in
  let res :=
    match named self with
    | Some _ =>
        fold_left
          (fun res task => (res ++ item_heading M (name task))%string)
          (checklist self)
          (res ++ task_heading M self)%string
    | None => res
    end in
  fold_left (fun res task => (res ++ will_be_pushed M task)%string)
    (checklist self) res.

(** Every child of a named task is named, at every depth. *)
Fixpoint items_named (t : Task) : bool :=
  (if is_named t then forallb is_named (checklist t) else true)
  && forallb items_named (checklist t).

(** What the preview of the tree [root] says of a step of a push: the
    heading of the task for the call that creates it, the line of the
    child for the call that creates its item, nothing for an
    assignment. *)
Definition announced (M : Messages) (root : Task) (x : step) : string :=
  match x with
  | DoCreateTask p =>
      match at_path root p with
      | Some c => task_heading M c
      | None => EmptyString
      end
  | DoCreateChecklistItem p i =>
      match at_path root (p ++ [i]) with
      | Some c => item_heading M (name c)
      | None => EmptyString
      end
  | _ => EmptyString
  end.

(** What the preview of [root] says of a list of steps. *)
Definition says (M : Messages) (root : Task) (l : list step) : string :=
  String.concat EmptyString (map (announced M root) l).

(** The templates as the program has them untranslated. *)
Definition english (str : value -> string) : Messages :=
  {| task_heading := fun t =>
       ("Task "
        ++ match name t with Some n => n | None => "None" end
        ++ " with priority " ++ str (priority t) ++ newline)%string;
     item_heading := fun n =>
       ("    - " ++ match n with Some n => n | None => "None" end
        ++ newline)%string |}.

(** ** The command [push]

    [PushData.main] from the point where the text of the file is in
    [content]: how the text gets there (the editor, the temporary file,
    the file named on the command line) and the set-up of the client are
    the business of the operating system and of the libraries.  The
    parser and the printer of YAML, the gettext catalogue and the user at
    the keyboard are the fields of an interface.

    As shipped, [planner.py] has one closing bracket too many at the end
    of the note of [Task.push] (line 105) and does not parse, so that
    nothing of the module runs.  What follows, like the rest of this
    file, is the program with that bracket removed. *)
Record Host : Type := {
  (** [yaml.load(content)]: what the call writes to [sys.stderr] on its
      way, such as the warning of the library about the missing loader,
      and the document or the exception *)
  yaml_load : string -> list string * result value;
  (** [yaml.dump(d, encoding='utf-8', allow_unicode=True).decode('utf-8')] *)
  yaml_dump : list value -> string;
  (** [_(message)] *)
  gettext : string -> string;
  (** what [input(prompt)] returns, or the exception that ends it *)
  input : string -> result string
}.

(** The two streams of the process, and what [sys.stdout] and
    [sys.stderr] are bound to; [printed] is what was written, with the
    stream it went to. *)
Inductive stream : Type := console_out | console_err.

Record console : Type := {
  sys_stdout : stream;
  sys_stderr : stream;
  printed : list (stream * string)
}.

(** [swap_out_err]. *)
Definition swap_out_err (c : console) : console :=
  let err := sys_stderr c in
  let c := {| sys_stdout := sys_stdout c; sys_stderr := sys_stdout c;
              printed := printed c |} in
  {| sys_stdout := err; sys_stderr := sys_stderr c; printed := printed c |}.

(** [print(text, end=end_)], which writes to [sys.stdout]. *)
Definition print (text end_ : string) (c : console) : console :=
  {| sys_stdout := sys_stdout c; sys_stderr := sys_stderr c;
     printed := printed c ++ [(sys_stdout c, (text ++ end_)%string)] |}.

(** What a library writes to [sys.stderr], one text after the other. *)
Definition warn (texts : list string) (c : console) : console :=
  {| sys_stdout := sys_stdout c; sys_stderr := sys_stderr c;
     printed := printed c ++ map (fun text => (sys_stderr c, text)) texts |}.

(** How a run of the command ends: with the value [main] returns ([None]
    when it falls off its end) or the exception that leaves it, the console
    and the service as it leaves them. *)
Record run (W : Outside) : Type := {
  exit : result (option Z);
  screen : console;
  world : state W
}.
Arguments exit {W} r.
Arguments screen {W} r.
Arguments world {W} r.

(** [PushData.main], from [swap_out_err()] on. *)
Definition PushData_main (W : Outside) (H : Host) (M : Messages)
    (content : string) (c : console) (s : state W) : run W :=
  let c := swap_out_err c in
  let (warnings, d) := yaml_load H content in
  let c := warn warnings c in
  match d with
  | Err e => {| exit := Err e; screen := c; world := s |}
  | Ok d =>
  if negb (truthy d) then
    let c := print (gettext H "Tasks not found. Exiting.") newline c in
    {| exit := Ok (Some 1%Z); screen := c; world := s |}
  else
  match Task_init None d with
  | Err e => {| exit := Err e; screen := c; world := s |}
  | Ok t =>
  match is_new t with
  | Err e => {| exit := Err e; screen := c; world := s |}
  | Ok n =>
  if negb n then
    let c :=
      print (gettext H "Found tasks already pushed to Habitica.") newline c in
    let c := print (gettext H "Please use 'update'. Exiting.") newline c in
    {| exit := Ok (Some 1%Z); screen := c; world := s |}
  else
  let c := print (gettext H "Found this this tasks") newline c in
  let c := print (will_be_pushed M t) EmptyString c in
  let c := print (gettext H "Push to Habitica?[Y/n]") EmptyString c in
  match input H (gettext H "Push to Habitica?[Y/n]") with
  | Err e => {| exit := Err e; screen := c; world := s |}
  | Ok r =>
  if String.eqb r "n" || String.eqb r (gettext H "n") then
    {| exit := Ok (Some 1%Z); screen := c; world := s |}
  else
  let o := push W t s in
  match raised o with
  | Some e => {| exit := Err e; screen := c; world := after o |}
  | None =>
  let d := Task_iter (res o) in
  let c := swap_out_err c in
  let c := print (yaml_dump H d) newline c in
  {| exit := Ok None; screen := c; world := after o |}
  end end end end end.

(** * Theorems *)

(** ** Construction *)

Lemma init_list nm es :
  Task_init nm (VList es) = init_elements Task_init nm (new_Task nm) es.
Proof. reflexivity. Qed.

(** C2.  [is_new] as written never returns a truth value: on every task,
    named or not, with or without children and identifiers, evaluating the
    header of its loop looks up the attribute [checklists], which a [Task]
    does not have, and the call ends in [AttributeError]. *)
Theorem is_new_attribute_error :
  forall t : Task, is_new t = Err (AttributeError "checklists").
Proof. intros [nm cl pr i ci]. reflexivity. Qed.

(** With the attribute spelled [checklist], the same code computes the
    check the loop is written for: no named task of the tree has an [id]. *)
Lemma is_new_over_checklist t :
  is_new_over "checklist" t = Ok (all_unpushed t).
Proof.
  induction t as [nm cl pr i ci IH] using Task_nested_ind.
  assert (Hloop : forall n,
    (fix loop (n : bool) (tasks : list Task) {struct tasks} : result bool :=
       match tasks with
       | [] => Ok n
       | task :: rest =>
           if n then (b <- is_new_over "checklist" task ;; loop b rest)
           else loop n rest
       end) n cl = Ok (n && forallb all_unpushed cl)).
  { induction IH as [|c cl Hc _ IHcl]; intros n.
    - now rewrite andb_true_r.
    - cbn [forallb]. destruct n.
      + rewrite Hc. cbn [bind]. now rewrite IHcl.
      + now rewrite IHcl. }
  cbn [is_new_over all_unpushed checklist id String.eqb Ascii.eqb Bool.eqb].
  rewrite Hloop. unfold is_named.
  now destruct (named (mkTask nm cl pr i ci)).
Qed.

(** A priority entry is checked: a value outside 0.5, 1, 1.5, 2 is
    refused with the invalid-priority error, a value among them becomes
    the priority of the task. *)
Lemma priority_entry_validated nm v rest :
  (priority_ok v = false ->
   Task_init nm (VList (VDict [("priority", v)] :: rest))
   = Err (ValueError (InvalidPriority nm v))) /\
  (priority_ok v = true ->
   Task_init nm (VList [VDict [("priority", v)]])
   = Ok (set_priority v (new_Task nm))).
Proof.
  split; intros H; rewrite init_list; cbn [init_elements];
    change (String.eqb "priority" "priority") with true; cbn iota;
    now rewrite H.
Qed.

(** C3.  A scalar written in place of a subtask sequence is stored as the
    priority without being compared with 0.5, 1, 1.5 and 2: the entry
    [{"name": 7}] builds a child of priority 7, although 7 is rejected when
    it comes in a [{"priority": 7}] entry of the same task. *)
Theorem scalar_priority_not_validated :
  priority_ok (VInt 7) = false /\
  raises (Task_init None (VList [VDict [("name", VList [VDict [("priority", VInt 7)]])]])) /\
  Task_init None (VList [VDict [("name", VInt 7)]])
  = Ok (mkTask None
          [mkTask (Some "name") [] (VInt 7) VNone VNone]
          default_priority VNone VNone).
Proof.
  split; [reflexivity|]. split; [|reflexivity].
  eexists. reflexivity.
Qed.

(** C4.  An [id] or [checklist_id] entry whose value is text is first
    recorded and then, the branch having no [continue], falls through to
    the final [raise]: construction fails with the unexpected-element
    [ValueError], whatever follows the entry. *)
Theorem identifier_entry_with_text_raises :
  forall (nm : option string) (s : string) (rest : list value),
    Task_init nm (VList (VDict [("id", VStr s)] :: rest))
    = Err (ValueError (UnexpectedElement (VDict [("id", VStr s)]))) /\
    Task_init nm (VList (VDict [("checklist_id", VStr s)] :: rest))
    = Err (ValueError (UnexpectedElement (VDict [("checklist_id", VStr s)]))).
Proof. intros. split; reflexivity. Qed.

Lemma last_cons {A : Type} (a d : A) (l : list A) :
  last (a :: l) d = last l a.
Proof.
  revert a d. induction l as [|b l IH]; intros a d; [reflexivity|].
  change (last (a :: b :: l) d) with (last (b :: l) d).
  rewrite (IH b d). symmetry. apply (IH b a).
Qed.

Lemma init_elements_priorities init nm es :
  forall self w t0,
    (forall v, In v (priority_values es) -> priority_ok v = true) ->
    init_elements init nm self (without_priority_entries es) = Ok t0 ->
    init_elements init nm (set_priority w self) es
    = Ok (set_priority (last (priority_values es) w) t0).
Proof.
  induction es as [|e es IH]; intros self w t0 Hok Hrun.
  - simpl in *. now inversion Hrun.
  - assert (Hok' : forall v, In v (priority_values es) -> priority_ok v = true).
    { intros v Hv. apply Hok. unfold priority_values. simpl.
      apply in_or_app. now right. }
    destruct e as [| b | z | f | s | l | items];
      try (simpl in *; now apply IH).
    + simpl in *. exact (IH _ w t0 Hok' Hrun).
    + destruct items as [|[k v] [|kv2 items]]; try (simpl in Hrun; discriminate).
      destruct (String.eqb k "priority") eqn:Hk.
      * assert (Hv : priority_ok v = true).
        { apply Hok. unfold priority_values. simpl. rewrite Hk. now left. }
        unfold without_priority_entries in Hrun. simpl in Hrun.
        rewrite Hk in Hrun.
        simpl. rewrite Hk, Hv.
        change ([v] ++ ?l) with (v :: l). rewrite last_cons.
        exact (IH self v t0 Hok' Hrun).
      * unfold without_priority_entries in Hrun. simpl in Hrun.
        rewrite Hk in Hrun. simpl in Hrun. rewrite Hk in Hrun.
        simpl. rewrite Hk. simpl.
        destruct (is_list_int_float v); [|discriminate].
        destruct (init (Some k) v) as [child|x]; [|discriminate].
        simpl in *.
        replace (append_child child (record_identifier k v (set_priority w self)))
          with (set_priority w (append_child child (record_identifier k v self))).
        { now apply IH. }
        unfold record_identifier.
        destruct (String.eqb k "id"); [reflexivity|].
        destruct (String.eqb k "checklist_id"); reflexivity.
Qed.

(** C9.  Several priority entries in one sequence: when each of them holds
    one of the accepted values and the other elements of the sequence are
    accepted (they build [t0]), the whole sequence is accepted, the task
    differs from [t0] in its priority alone, which is the value of the last
    priority entry, and so no child comes from a priority entry. *)
Theorem last_priority_entry_wins :
  forall (nm : option string) (es : list value) (t0 : Task),
    (forall v, In v (priority_values es) -> priority_ok v = true) ->
    Task_init nm (VList (without_priority_entries es)) = Ok t0 ->
    Task_init nm (VList es)
    = Ok (set_priority (last (priority_values es) default_priority) t0).
Proof.
  intros nm es t0 Hok Hrun. rewrite init_list in *.
  change (new_Task nm) with (set_priority default_priority (new_Task nm)).
  now apply init_elements_priorities.
Qed.

Lemma last_priority_entry_wins_witness :
  Task_init (Some "t")
    (VList [VDict [("priority", VInt 2)]; VStr "a";
            VDict [("priority", VFloat (Ffin (1 # 2)))]; VStr "b";
            VDict [("priority", VFloat (Ffin (3 # 2)))]])
  = Ok (mkTask (Some "t")
          [mkTask (Some "a") [] default_priority VNone VNone;
           mkTask (Some "b") [] default_priority VNone VNone]
          (VFloat (Ffin (3 # 2))) VNone VNone).
Proof.
  apply (last_priority_entry_wins (Some "t")
           [VDict [("priority", VInt 2)]; VStr "a";
            VDict [("priority", VFloat (Ffin (1 # 2)))]; VStr "b";
            VDict [("priority", VFloat (Ffin (3 # 2)))]]
           (mkTask (Some "t")
              [mkTask (Some "a") [] default_priority VNone VNone;
               mkTask (Some "b") [] default_priority VNone VNone]
              default_priority VNone VNone)).
  - intros v Hv. simpl in Hv.
    destruct Hv as [<-|[<-|[<-|[]]]]; reflexivity.
  - reflexivity.
Defined.

(** *** Which documents are refused *)

Lemma init_elements_skip init nm es1 e es2 :
  text_or_mapping e = false ->
  forall self,
    init_elements init nm self (es1 ++ e :: es2)
    = init_elements init nm self (es1 ++ es2).
Proof.
  intros He. induction es1 as [|a es1 IH]; intro self.
  - destruct e; try discriminate; reflexivity.
  - destruct a as [| b | z | f | s | l | items]; simpl; try apply IH.
    destruct items as [|[k v] [|kv2 items]]; try reflexivity.
    destruct (String.eqb k "priority").
    + destruct (priority_ok v); [apply IH | reflexivity].
    + destruct (is_list_int_float v); [|reflexivity].
      destruct (init (Some k) v); simpl; [apply IH | reflexivity].
Qed.

Lemma init_elements_step init nm a rest self :
  raises (init_elements init nm self (a :: rest)) \/
  exists self',
    init_elements init nm self (a :: rest)
    = init_elements init nm self' rest.
Proof.
  destruct a as [| b | z | f | s | l | items]; simpl;
    try (right; eexists; reflexivity).
  destruct items as [|[k v] [|kv2 items]];
    try (left; eexists; reflexivity).
  destruct (String.eqb k "priority").
  - destruct (priority_ok v);
      [right; eexists; reflexivity | left; eexists; reflexivity].
  - destruct (is_list_int_float v); [|left; eexists; reflexivity].
    destruct (init (Some k) v); simpl;
      [right; eexists; reflexivity | left; eexists; reflexivity].
Qed.

Lemma init_elements_raises_at init nm e es :
  In e es ->
  (forall self rest, raises (init_elements init nm self (e :: rest))) ->
  forall self, raises (init_elements init nm self es).
Proof.
  intros Hin He. induction es as [|a es IH]; [contradiction|].
  intro self. destruct Hin as [->|Hin]; [apply He|].
  destruct (init_elements_step init nm a es self) as [Hr|[self' Heq]];
    [exact Hr|].
  rewrite Heq. now apply IH.
Qed.

Lemma rejected_is_list bad v : rejected bad v -> exists es, v = VList es.
Proof. intros H; inversion H; eexists; reflexivity. Qed.

Lemma rejected_cons bad e es :
  rejected bad (VList es) -> rejected bad (VList (e :: es)).
Proof.
  intros H. inversion H; subst.
  - eapply rejected_size; [right|]; eassumption.
  - eapply rejected_priority; [right|]; eassumption.
  - eapply rejected_type; [right| |]; eassumption.
  - eapply rejected_nested; [right| |]; eassumption.
Qed.

Lemma eqb_priority_false k : k <> "priority" -> String.eqb k "priority" = false.
Proof. intros H. now apply String.eqb_neq. Qed.

Lemma rejected_raises data :
  rejected not_one_key data -> forall nm, raises (Task_init nm data).
Proof.
  induction 1 as [es items Hin Hsz | es v Hin Hv | es k v Hin Hk Hty
                 | es k v Hin Hk Hrej IH];
    intro nm; rewrite init_list;
    apply (init_elements_raises_at _ _ _ _ Hin); intros self rest.
  - destruct items as [|[k v] [|kv2 items]]; try (eexists; reflexivity).
    now elim Hsz.
  - simpl. rewrite Hv. eexists; reflexivity.
  - simpl. rewrite (eqb_priority_false _ Hk), Hty. eexists; reflexivity.
  - destruct (rejected_is_list _ _ Hrej) as [l ->].
    cbn [init_elements]. rewrite (eqb_priority_false _ Hk).
    cbn [is_list_int_float].
    destruct (IH (Some k)) as [x Hx]. rewrite Hx. eexists; reflexivity.
Qed.

Lemma raises_rejected data :
  forall nm, raises (Task_init nm data) -> rejected not_one_key data.
Proof.
  enough (H :
    (forall nm, raises (Task_init nm data) -> rejected not_one_key data) /\
    match data with
    | VDict items =>
        Forall (fun kv => forall nm, raises (Task_init nm (snd kv)) ->
                                     rejected not_one_key (snd kv)) items
    | _ => True
    end) by apply H.
  induction data as [| b | z | f | s | l IH | l IH] using value_nested_ind;
    try (split; [intros nm [x Hx]; discriminate | exact I]).
  - split; [|exact I]. intros nm. rewrite init_list.
    generalize (new_Task nm). induction IH as [|e es [_ He] _ IHes];
      intros self [x Hx]; [discriminate|].
    destruct e as [| b | z | f | s | l' | items];
      try (apply rejected_cons; apply (IHes self); eexists; exact Hx);
      try (apply rejected_cons; eapply IHes; eexists; exact Hx).
    destruct items as [|[k v] [|kv2 items]].
    + eapply rejected_size; [left; reflexivity|]. simpl. intro; discriminate.
    + simpl in Hx. destruct (String.eqb k "priority") eqn:Hk.
      * apply String.eqb_eq in Hk. subst k.
        destruct (priority_ok v) eqn:Hv.
        -- apply rejected_cons. eapply IHes. eexists; exact Hx.
        -- eapply rejected_priority; [left; reflexivity | exact Hv].
      * apply String.eqb_neq in Hk.
        destruct (is_list_int_float v) eqn:Hty.
        -- destruct (Task_init (Some k) v) as [child|y] eqn:Hc; simpl in Hx.
           ++ apply rejected_cons. eapply IHes. eexists; exact Hx.
           ++ eapply rejected_nested; [left; reflexivity | exact Hk |].
              inversion He as [|? ? Hv _]; subst.
              apply (Hv (Some k)). eexists; exact Hc.
        -- eapply rejected_type; [left; reflexivity | exact Hk | exact Hty].
    + eapply rejected_size; [left; reflexivity|]. simpl. intro; discriminate.
  - split; [intros nm [x Hx]; discriminate|].
    eapply Forall_impl; [|exact IH]. intros kv [H _]. exact H.
Qed.

(** C10, as amended.  An element that is neither text nor a mapping leaves
    no trace: the constructor gives the same result, task or exception,
    as on the sequence without that element.  The constructor raises exactly
    on the documents that hold, at some depth, a mapping whose number of keys
    is not one (several keys, or none), a priority entry with a value that
    is not accepted, or a single-key mapping whose value is neither a
    sequence nor a number. *)
Theorem skipped_elements_and_refusals :
  (forall nm es1 e es2,
      text_or_mapping e = false ->
      Task_init nm (VList (es1 ++ e :: es2))
      = Task_init nm (VList (es1 ++ es2))) /\
  (forall nm data,
      raises (Task_init nm data) <-> rejected not_one_key data).
Proof.
  split.
  - intros nm es1 e es2 He. rewrite !init_list.
    now apply init_elements_skip.
  - intros nm data. split; [apply raises_rejected|].
    intros H. now apply rejected_raises.
Qed.

Lemma skipped_elements_and_refusals_witness :
  Task_init None (VList ([VStr "a"] ++ VInt 3 :: [VStr "b"]))
  = Task_init None (VList ([VStr "a"] ++ [VStr "b"])).
Proof.
  apply (proj1 skipped_elements_and_refusals None [VStr "a"] (VInt 3)
           [VStr "b"]).
  reflexivity.
Defined.

(** C10, as stated, fails on the empty mapping: [[{}]] is refused although
    it holds no mapping of several keys, no priority entry and no single-key
    mapping. *)
Lemma empty_mapping_is_refused :
  raises (Task_init None (VList [VDict []])) /\
  ~ rejected several_keys (VList [VDict []]).
Proof.
  split; [eexists; reflexivity|].
  intros H. inversion H as [es items Hin Hsz | es v Hin Hv | es k v Hin Hk Hty
                           | es k v Hin Hk Hrej]; subst;
    destruct Hin as [Heq|[]]; try discriminate.
  inversion Heq; subst. unfold several_keys in Hsz. simpl in Hsz. lia.
Qed.

(** ** Serialization and parsing back *)

Lemma priority_ok_truthy v : priority_ok v = true -> truthy v = true.
Proof.
  unfold priority_ok, valid_priorities. simpl. rewrite !orb_false_r.
  destruct v as [| b | z | f | s | l | l]; simpl; try discriminate.
  - destruct b; [reflexivity | vm_compute; discriminate].
  - destruct (Z.eqb_spec z 0) as [->|]; [vm_compute; discriminate | reflexivity].
  - destruct f as [| ng | q]; try reflexivity. simpl.
    intros H. destruct (Qeq_bool q 0) eqn:H0; [|reflexivity].
    apply Qeq_bool_iff in H0.
    repeat (apply orb_true_iff in H; destruct H as [H|H]);
      apply Qeq_bool_iff in H; rewrite H0 in H; discriminate H.
Qed.

Lemma record_identifier_fields k v self :
  name (record_identifier k v self) = name self /\
  checklist (record_identifier k v self) = checklist self /\
  priority (record_identifier k v self) = priority self.
Proof.
  unfold record_identifier.
  destruct (String.eqb k "id"); [repeat split|].
  destruct (String.eqb k "checklist_id"); repeat split.
Qed.

Lemma record_identifier_other k v self :
  identifier_key k = false -> record_identifier k v self = self.
Proof.
  unfold identifier_key, record_identifier. intros H.
  apply orb_false_iff in H. destruct H as [-> ->]. reflexivity.
Qed.

(** The entry [__iter__] yields for a child. *)
Lemma child_entries_cons c cl :
  flat_map
    (fun task =>
       match named task with
       | Some n => [VDict [(n, VList (Task_iter task))]]
       | None => []
       end) (c :: cl)
  = match named c with
    | Some n => [VDict [(n, VList (Task_iter c))]]
    | None => []
    end
    ++ flat_map
         (fun task =>
            match named task with
            | Some n => [VDict [(n, VList (Task_iter task))]]
            | None => []
            end) cl.
Proof. reflexivity. Qed.

Lemma entry_task_inv t :
  entry_task t = true ->
  exists s,
    name t = Some s /\ String.eqb s EmptyString = false /\
    String.eqb s "priority" = false /\
    id t = VNone /\ checklist_id t = VNone /\
    priority_ok (priority t) = true /\
    forallb entry_task (checklist t) = true.
Proof.
  destruct t as [nm cl pr i ci]. simpl.
  destruct nm as [s|]; [|discriminate]. intros H.
  repeat (apply andb_true_iff in H; destruct H as [H ?]).
  apply negb_true_iff in H.
  destruct i; try discriminate. destruct ci; try discriminate.
  exists s. repeat split; try assumption.
  now apply negb_true_iff.
Qed.

Lemma init_elements_children nm cl :
  Forall parses_back cl ->
  forallb entry_task cl = true ->
  forall self,
    exists cs' i' k',
      init_elements Task_init nm self
        (flat_map
           (fun task =>
              match named task with
              | Some n => [VDict [(n, VList (Task_iter task))]]
              | None => []
              end) cl)
      = Ok (mkTask (name self) (checklist self ++ cs') (priority self) i' k')
      /\ map skeleton cs' = map skeleton cl
      /\ (forallb (fun c => negb (identifier_named c)
                             && identifier_free_names c) cl = true ->
          cs' = cl /\ i' = id self /\ k' = checklist_id self).
Proof.
  induction 1 as [|c cl Hc _ IH]; intros Hall self.
  - exists [], (id self), (checklist_id self). simpl. rewrite app_nil_r.
    destruct self; repeat split.
  - simpl in Hall. apply andb_true_iff in Hall. destruct Hall as [Hent Hall].
    destruct (entry_task_inv _ Hent) as (s & Hn & Hne & Hnp & _).
    destruct (Hc s Hn) as (c' & Hparse & Hsk & Hsame).
    rewrite child_entries_cons. unfold named at 1. rewrite Hn, Hne.
    cbn [app init_elements]. rewrite Hnp. cbn [is_list_int_float].
    rewrite Hparse. cbn [bind].
    destruct (IH Hall (append_child c'
                (record_identifier s (VList (Task_iter c)) self)))
      as (cs' & i' & k' & Hrun & Hsks & Hsames).
    destruct (record_identifier_fields s (VList (Task_iter c)) self)
      as (Hrn & Hrc & Hrp).
    exists (c' :: cs'), i', k'. split; [|split].
    + rewrite Hrun. cbn [append_child set_checklist name checklist priority].
      rewrite Hrn, Hrc, Hrp, <- app_assoc. reflexivity.
    + simpl. now rewrite Hsk, Hsks.
    + intros Hfree. simpl in Hfree.
      apply andb_true_iff in Hfree. destruct Hfree as [Hfc Hfree].
      apply andb_true_iff in Hfc. destruct Hfc as [Hnid Hfc].
      apply negb_true_iff in Hnid. unfold identifier_named in Hnid.
      rewrite Hn in Hnid.
      destruct (Hsames Hfree) as (-> & -> & ->).
      rewrite (Hsame Hfc), (record_identifier_other _ _ _ Hnid).
      repeat split.
Qed.

Lemma Forall_forallb_mp {A : Type} (f : A -> bool) (P : A -> Prop) l :
  Forall (fun a => f a = true -> P a) l ->
  forallb f l = true -> Forall P l.
Proof.
  induction 1 as [|a l Ha _ IH]; intros H; [constructor|].
  simpl in H. apply andb_true_iff in H. destruct H as [H1 H2].
  constructor; auto.
Qed.

Lemma entry_task_parses_back c : entry_task c = true -> parses_back c.
Proof.
  induction c as [nm cl pr i ci IH] using Task_nested_ind.
  intros Hent n Hn.
  destruct (entry_task_inv _ Hent) as (s & Hs & Hne & Hnp & Hi & Hci & Hpr & Hcl).
  simpl in Hs, Hi, Hci, Hpr, Hcl, Hn. subst i ci. rewrite Hs in Hn.
  injection Hn as <-. subst nm.
  pose proof (Forall_forallb_mp _ _ _ IH Hcl) as Hback.
  destruct (init_elements_children (Some s) cl Hback Hcl
              (set_priority pr (new_Task (Some s))))
    as (cs' & i' & k' & Hrun & Hsks & Hsames).
  rewrite init_list.
  cbn [Task_iter]. unfold named. cbn [name]. rewrite Hne.
  unfold own_entries. cbn [flat_map prop_value id checklist_id priority
                             String.eqb Ascii.eqb Bool.eqb truthy app].
  rewrite (priority_ok_truthy _ Hpr). cbn [app init_elements].
  change (String.eqb "priority" "priority") with true.
  cbn iota. rewrite Hpr.
  exists (mkTask (Some s) cs' pr i' k'). split; [|split].
  - exact Hrun.
  - cbn [skeleton name checklist priority]. now rewrite Hsks.
  - intros Hfree. cbn [identifier_free_names checklist] in Hfree.
    destruct (Hsames Hfree) as (-> & -> & ->). reflexivity.
Qed.

(** C1, as amended.  Take a tree whose root is unnamed, carries the default
    priority and no identifier, and whose other tasks all have a non-empty
    name different from [priority], one of the accepted priorities and no
    identifier.  Parsing its serialization succeeds and gives a tree with
    the same names, priorities and children in the same order; it gives the
    very same tree when, in addition, no task is called [id] or
    [checklist_id]. *)
Theorem parse_serialize_roundtrip :
  forall t : Task,
    name t = None ->
    priority t = default_priority ->
    id t = VNone ->
    checklist_id t = VNone ->
    forallb entry_task (checklist t) = true ->
    exists t',
      Task_init None (VList (Task_iter t)) = Ok t' /\
      skeleton t' = skeleton t /\
      (identifier_free_names t = true -> t' = t).
Proof.
  intros [nm cl pr i ci]. cbn [name priority id checklist_id checklist].
  intros -> -> -> -> Hcl.
  assert (Hback : Forall parses_back cl).
  { apply (Forall_forallb_mp entry_task); [|exact Hcl].
    apply Forall_forall. intros c _. apply entry_task_parses_back. }
  destruct (init_elements_children None cl Hback Hcl (new_Task None))
    as (cs' & i' & k' & Hrun & Hsks & Hsames).
  rewrite init_list. cbn [Task_iter named name checklist app].
  exists (mkTask None cs' default_priority i' k'). split; [|split].
  - exact Hrun.
  - cbn [skeleton name checklist priority]. now rewrite Hsks.
  - intros Hfree. cbn [identifier_free_names checklist] in Hfree.
    destruct (Hsames Hfree) as (-> & -> & ->). reflexivity.
Qed.

Lemma parse_serialize_roundtrip_witness :
  exists t',
    Task_init None
      (VList (Task_iter
         (mkTask None
            [mkTask (Some "Buy milk") [] default_priority VNone VNone;
             mkTask (Some "Clean house")
               [mkTask (Some "Vacuum") [] default_priority VNone VNone;
                mkTask (Some "Dishes") [] default_priority VNone VNone]
               (VInt 2) VNone VNone]
            default_priority VNone VNone))) = Ok t' /\
    skeleton t'
    = skeleton
        (mkTask None
            [mkTask (Some "Buy milk") [] default_priority VNone VNone;
             mkTask (Some "Clean house")
               [mkTask (Some "Vacuum") [] default_priority VNone VNone;
                mkTask (Some "Dishes") [] default_priority VNone VNone]
               (VInt 2) VNone VNone]
            default_priority VNone VNone) /\
    (identifier_free_names
        (mkTask None
            [mkTask (Some "Buy milk") [] default_priority VNone VNone;
             mkTask (Some "Clean house")
               [mkTask (Some "Vacuum") [] default_priority VNone VNone;
                mkTask (Some "Dishes") [] default_priority VNone VNone]
               (VInt 2) VNone VNone]
            default_priority VNone VNone) = true ->
     t' = mkTask None
            [mkTask (Some "Buy milk") [] default_priority VNone VNone;
             mkTask (Some "Clean house")
               [mkTask (Some "Vacuum") [] default_priority VNone VNone;
                mkTask (Some "Dishes") [] default_priority VNone VNone]
               (VInt 2) VNone VNone]
            default_priority VNone VNone).
Proof.
  apply (parse_serialize_roundtrip
           (mkTask None
            [mkTask (Some "Buy milk") [] default_priority VNone VNone;
             mkTask (Some "Clean house")
               [mkTask (Some "Vacuum") [] default_priority VNone VNone;
                mkTask (Some "Dishes") [] default_priority VNone VNone]
               (VInt 2) VNone VNone]
            default_priority VNone VNone)); reflexivity.
Defined.

(** C1, as stated, fails on trees that text and priority entries build:
    a task called [priority] is serialized into an entry that the
    constructor reads as a priority entry and refuses; a task with the empty
    name is not serialized, so a child is lost; the priority given to the
    root by a top-level priority entry is not serialized either. *)
Lemma roundtrip_fails_on_entry_built_trees :
  (exists t,
      Task_init None (VList [VStr "priority"]) = Ok t /\
      raises (Task_init None (VList (Task_iter t)))) /\
  (exists t t',
      Task_init None (VList [VStr EmptyString]) = Ok t /\
      Task_init None (VList (Task_iter t)) = Ok t' /\
      List.length (checklist t) = 1 /\ List.length (checklist t') = 0) /\
  (exists t t',
      Task_init None (VList [VDict [("priority", VInt 2)]; VStr "a"]) = Ok t /\
      Task_init None (VList (Task_iter t)) = Ok t' /\
      priority t = VInt 2 /\ priority t' = default_priority).
Proof.
  split; [|split].
  - eexists. split; [reflexivity|]. eexists. reflexivity.
  - do 2 eexists. split; [reflexivity|]. split; [reflexivity|].
    split; reflexivity.
  - do 2 eexists. split; [reflexivity|]. split; [reflexivity|].
    split; reflexivity.
Qed.

(** ** The walk: what it leaves untouched *)

Lemma named_skeleton t : named (skeleton t) = named t.
Proof. destruct t; reflexivity. Qed.

Lemma skeleton_named t t' : skeleton t = skeleton t' -> named t = named t'.
Proof.
  intros H. rewrite <- (named_skeleton t), <- (named_skeleton t'). now rewrite H.
Qed.

Lemma skeleton_is_named t t' :
  skeleton t = skeleton t' -> is_named t = is_named t'.
Proof. intros H. unfold is_named. now rewrite (skeleton_named _ _ H). Qed.

Lemma skeleton_set_checklist cl t :
  skeleton (set_checklist cl t)
  = mkTask (name t) (map skeleton cl) (priority t) VNone VNone.
Proof. reflexivity. Qed.

Lemma skeleton_unfold t :
  skeleton t = mkTask (name t) (map skeleton (checklist t)) (priority t)
                 VNone VNone.
Proof. destruct t; reflexivity. Qed.

Lemma skeleton_set_id v t : skeleton (set_id v t) = skeleton t.
Proof. destruct t; reflexivity. Qed.

Lemma skeleton_set_checklist_id v t :
  skeleton (set_checklist_id v t) = skeleton t.
Proof. destruct t; reflexivity. Qed.

Lemma map_skeleton_Forall2 l l' :
  map skeleton l = map skeleton l' ->
  Forall2 (fun a b => skeleton a = skeleton b) l l'.
Proof.
  revert l'. induction l as [|a l IH]; intros [|b l'] H;
    try discriminate; constructor.
  - now injection H.
  - apply IH. now injection H.
Qed.

Lemma concat_indexed_ext {A B : Type} (R : A -> A -> Prop)
    (f g : nat -> A -> list B) l l' :
  Forall2 R l l' ->
  (forall i a b, In a l -> R a b -> f i a = g i b) ->
  forall i, concat_indexed f i l = concat_indexed g i l'.
Proof.
  induction 1 as [|a b l l' Hab _ IH]; intros Hfg i; [reflexivity|].
  simpl. rewrite (Hfg i a b (or_introl eq_refl) Hab). f_equal.
  apply IH. intros j x y Hx. apply Hfg. now right.
Qed.

Lemma item_steps_skeleton p l l' :
  map skeleton l = map skeleton l' ->
  forall i, item_steps p i l = item_steps p i l'.
Proof.
  intros H i. unfold item_steps.
  apply (concat_indexed_ext _ _ _ _ _ (map_skeleton_Forall2 _ _ H)).
  intros j a b _ Hab. now rewrite (skeleton_is_named _ _ Hab).
Qed.

Lemma preorder_skeleton t :
  forall t' p, skeleton t = skeleton t' -> preorder p t = preorder p t'.
Proof.
  induction t as [nm cl pr i ci IH] using Task_nested_ind.
  intros [nm' cl' pr' i' ci'] p H.
  pose proof (skeleton_is_named _ _ H) as Hn.
  simpl in H. injection H as -> Hcl ->.
  cbn [preorder checklist]. rewrite Hn.
  rewrite (item_steps_skeleton p _ _ Hcl 0). f_equal.
  apply (concat_indexed_ext (fun a b => skeleton a = skeleton b)).
  - now apply map_skeleton_Forall2.
  - intros j a b Ha Hab. rewrite Forall_forall in IH. now apply IH.
Qed.

Lemma preorder_unfold p t :
  preorder p t
  = (if is_named t
     then DoCreateTask p :: DoAssignId p :: item_steps p 0 (checklist t)
     else [])
    ++ concat_indexed (fun i c => preorder (p ++ [i]) c) 0 (checklist t).
Proof. destruct t; reflexivity. Qed.

Lemma children_preorder_skeleton p l l' :
  map skeleton l = map skeleton l' ->
  forall i,
    concat_indexed (fun i c => preorder (p ++ [i]) c) i l
    = concat_indexed (fun i c => preorder (p ++ [i]) c) i l'.
Proof.
  intros H i.
  apply (concat_indexed_ext _ _ _ _ _ (map_skeleton_Forall2 _ _ H)).
  intros j a b _ Hab. now apply preorder_skeleton.
Qed.

(** *** Following a plan *)

Section Follows.
Context {W : Outside}.
Implicit Types s : state W.

Lemma follows_done s : follows [] s s None.
Proof. exists [], []. rewrite app_nil_r. repeat split. Qed.

Lemma follows_stopped plan s e : follows plan s s (Some e).
Proof.
  exists [], plan. rewrite app_nil_r. repeat split. discriminate.
Qed.

Lemma follows_event ev plan s s1 s' exc :
  log s1 = log s ++ [ev] ->
  follows plan s1 s' exc ->
  follows (step_of ev :: plan) s s' exc.
Proof.
  intros H1 (new & rest & Hlog & Hplan & Hrest).
  exists (ev :: new), rest. split; [|split].
  - rewrite Hlog, H1, <- app_assoc. reflexivity.
  - simpl. now rewrite Hplan.
  - exact Hrest.
Qed.

Lemma follows_recorded ev plan s a s' exc :
  follows plan {| remote := a; log := log s ++ [ev] |} s' exc ->
  follows (step_of ev :: plan) s s' exc.
Proof. apply follows_event. reflexivity. Qed.

Lemma follows_app plan1 plan2 s s1 s2 exc :
  follows plan1 s s1 None ->
  follows plan2 s1 s2 exc ->
  follows (plan1 ++ plan2) s s2 exc.
Proof.
  intros (new1 & rest1 & Hlog1 & Hplan1 & Hrest1)
         (new2 & rest2 & Hlog2 & Hplan2 & Hrest2).
  rewrite (Hrest1 eq_refl), app_nil_r in Hplan1.
  exists (new1 ++ new2), rest2. split; [|split].
  - rewrite Hlog2, Hlog1, app_assoc. reflexivity.
  - rewrite map_app, <- app_assoc, Hplan1, Hplan2. reflexivity.
  - exact Hrest2.
Qed.

Lemma follows_app_stopped plan1 plan2 s s1 e :
  follows plan1 s s1 (Some e) ->
  follows (plan1 ++ plan2) s s1 (Some e).
Proof.
  intros (new1 & rest1 & Hlog1 & Hplan1 & _).
  exists new1, (rest1 ++ plan2). split; [|split].
  - exact Hlog1.
  - now rewrite app_assoc, Hplan1.
  - discriminate.
Qed.
End Follows.

Section Walk.
Context (W : Outside).
Implicit Types s : state W.

Lemma post_checklist_plan p v cl :
  forall k i s,
    map skeleton (res (post_checklist W p v k i cl s)) = map skeleton cl /\
    follows (item_steps p i cl) s
      (after (post_checklist W p v k i cl s))
      (raised (post_checklist W p v k i cl s)).
Proof.
  induction cl as [|c cl IH]; intros k i s.
  - split; [reflexivity | apply follows_done].
  - cbn [post_checklist]. unfold item_steps. cbn [concat_indexed].
    fold (item_steps p (S i) cl). unfold is_named.
    destruct (named c) as [text|].
    + unfold post_checklist_item.
      destruct (tasks_checklist_post W v text (remote s)) as [r a].
      destruct (resp <- r ;; checklist_entry_id resp (S k)) as [cid|e].
      * cbn [res raised after].
        match goal with
        | |- context [post_checklist W p v (S k) (S i) cl ?s2] =>
            destruct (IH (S k) (S i) s2) as [Hsk Hf]
        end.
        split.
        -- cbn [map]. now rewrite skeleton_set_checklist_id, Hsk.
        -- cbn [app].
           apply (follows_recorded (CreateChecklistItem p i v text r)
                    _ _ a).
           eapply (follows_recorded (AssignChecklistId p i cid)).
           exact Hf.
      * cbn [res raised after app]. split; [reflexivity|].
        apply (follows_recorded (CreateChecklistItem p i v text r) _ _ a).
        apply follows_stopped.
    + cbn [res raised after]. destruct (IH k (S i) s) as [Hsk Hf].
      split; [cbn [map]; now rewrite Hsk | exact Hf].
Qed.

Lemma push_each_plan push :
  walks W push ->
  forall cl p i s,
    map skeleton (res (push_each W push p i cl s)) = map skeleton cl /\
    follows (concat_indexed (fun i c => preorder (p ++ [i]) c) i cl) s
      (after (push_each W push p i cl s))
      (raised (push_each W push p i cl s)).
Proof.
  intros Hpush. induction cl as [|c cl IH]; intros p i s.
  - split; [reflexivity | apply follows_done].
  - cbn [push_each concat_indexed].
    destruct (Hpush (p ++ [i]) c s) as [Hsk Hf].
    destruct (raised (push (p ++ [i]) c s)) as [e|].
    + cbn [res raised after]. split.
      * cbn [map]. now rewrite Hsk.
      * now apply follows_app_stopped.
    + cbn [res raised after].
      destruct (IH p (S i) (after (push (p ++ [i]) c s))) as [Hsks Hfs].
      split.
      * cbn [map]. now rewrite Hsk, Hsks.
      * eapply follows_app; eassumption.
Qed.

Lemma push_body_plan push : walks W push -> walks W (push_body W push).
Proof.
  intros Hpush p self s. unfold push_body.
  rewrite preorder_unfold. unfold is_named.
  destruct (named self) as [nm|].
  - unfold post_task.
    destruct (tasks_user_post W "todo" (nm ++ progress_marker) (note W)
                (py_str W (priority self)) (remote s)) as [r a].
    destruct (resp <- r ;; getitem resp "id") as [v|e].
    + match goal with
      | |- context [post_checklist W p ?i 0 0 ?cl ?s2] =>
          destruct (post_checklist_plan p i cl 0 0 s2) as [Hsk Hf];
          destruct (raised (post_checklist W p i 0 0 cl s2)) as [e|];
          [|destruct (push_each_plan push Hpush
                        (checklist (set_checklist
                           (res (post_checklist W p i 0 0 cl s2))
                           (set_id v self)))
                        p 0 (after (post_checklist W p i 0 0 cl s2)))
              as [Hsks Hfs]]
      end; cbn [res raised after checklist set_checklist set_id] in *.
      * split.
        -- rewrite skeleton_set_checklist, (skeleton_unfold self).
           cbn [name priority]. now rewrite Hsk.
        -- cbn [app].
           eapply (follows_recorded (CreateTask p _ _ _ r) _ _ a).
           eapply (follows_recorded (AssignId p v)).
           apply follows_app_stopped. exact Hf.
      * split.
        -- rewrite skeleton_set_checklist, (skeleton_unfold self).
           cbn [name priority]. now rewrite Hsks, Hsk.
        -- cbn [app].
           eapply (follows_recorded (CreateTask p _ _ _ r) _ _ a).
           eapply (follows_recorded (AssignId p v)).
           eapply follows_app; [exact Hf|].
           rewrite <- (children_preorder_skeleton p _ _ Hsk 0).
           exact Hfs.
    + cbn [res raised after app]. split; [reflexivity|].
      eapply (follows_recorded (CreateTask p _ _ _ r) _ _ a).
      apply follows_stopped.
  - destruct (push_each_plan push Hpush (checklist self) p 0 s)
      as [Hsks Hfs].
    cbn [res raised after app]. split; [|exact Hfs].
    rewrite skeleton_set_checklist, (skeleton_unfold self).
    now rewrite Hsks.
Qed.

Lemma push_fuel_plan fuel : walks W (push_fuel W fuel).
Proof.
  induction fuel as [|fuel IH].
  - intros p self s. cbn [push_fuel res raised after].
    split; [reflexivity | apply follows_stopped].
  - cbn [push_fuel]. now apply push_body_plan.
Qed.
End Walk.

(** *** The recursion of [push] *)

Section Fuel.
Context (W : Outside).
Implicit Types s : state W.

Lemma height_children t n :
  height t <= S n -> Forall (fun c => height c <= n) (checklist t).
Proof.
  destruct t as [nm cl pr i ci]. cbn [height checklist]. intros H.
  apply le_S_n in H. revert H.
  induction cl as [|c cl IH]; cbn [fold_right]; intros H; constructor.
  - lia.
  - apply IH. lia.
Qed.

Lemma post_checklist_heights p v cl :
  forall k i s,
    map height (res (post_checklist W p v k i cl s)) = map height cl.
Proof.
  induction cl as [|c cl IH]; intros k i s; [reflexivity|].
  cbn [post_checklist]. destruct (named c) as [text|].
  - unfold post_checklist_item.
    destruct (tasks_checklist_post W v text (remote s)) as [r a].
    destruct (resp <- r ;; checklist_entry_id resp (S k)) as [cid|e];
      cbn [res map]; [|reflexivity].
    rewrite IH. destruct c; reflexivity.
  - cbn [res map]. now rewrite IH.
Qed.

Lemma push_each_ext f g cl :
  Forall (fun c => forall q s, f q c s = g q c s) cl ->
  forall p i s, push_each W f p i cl s = push_each W g p i cl s.
Proof.
  induction 1 as [|c cl Hc _ IH]; intros p i s; [reflexivity|].
  cbn [push_each]. rewrite Hc.
  destruct (raised (g (p ++ [i]) c s)); [reflexivity|]. now rewrite IH.
Qed.

Lemma Forall_map_height (P : nat -> Prop) l l' :
  map height l' = map height l ->
  Forall (fun c => P (height c)) l -> Forall (fun c => P (height c)) l'.
Proof.
  revert l'. induction l as [|c l IH]; intros [|c' l'] H HP;
    try discriminate; constructor; inversion HP; subst.
  - injection H as -> _. assumption.
  - apply IH; [now injection H | assumption].
Qed.

Lemma push_body_ext f g n self :
  height self <= S n ->
  (forall c q s, height c <= n -> f q c s = g q c s) ->
  forall p s, push_body W f p self s = push_body W g p self s.
Proof.
  intros Hh Hfg p s. pose proof (height_children _ _ Hh) as Hcl.
  unfold push_body. destruct (named self) as [nm|].
  - destruct (post_task W p (nm ++ progress_marker) (note W)
                (py_str W (priority self)) s) as [r s1].
    destruct (resp <- r ;; getitem resp "id") as [v|e]; [|reflexivity].
    cbn [checklist set_checklist set_id id].
    match goal with
    | |- context [post_checklist W p v 0 0 ?cl ?s2] =>
        pose proof (post_checklist_heights p v cl 0 0 s2) as Hhs;
        destruct (raised (post_checklist W p v 0 0 cl s2));
        [reflexivity|]
    end.
    rewrite (push_each_ext f g); [reflexivity|].
    eapply Forall_impl;
      [|exact (Forall_map_height (fun h => h <= n) _ _ Hhs Hcl)].
    intros c Hc q s'. now apply Hfg.
  - rewrite (push_each_ext f g); [reflexivity|].
    eapply Forall_impl; [|exact Hcl]. intros c Hc q s'. now apply Hfg.
Qed.

Lemma push_fuel_enough n :
  forall m self p s,
    height self <= n -> height self <= m ->
    push_fuel W n p self s = push_fuel W m p self s.
Proof.
  induction n as [|n IH]; intros m self p s Hn Hm.
  - destruct self; cbn [height] in Hn; lia.
  - destruct m as [|m]; [destruct self; cbn [height] in Hm; lia|].
    cbn [push_fuel]. apply (push_body_ext _ _ (Nat.min n m)); [lia|].
    intros c q s' Hc. apply IH; lia.
Qed.

(** [push_at] is a fixed point of the body of [Task.push]: the recursion
    written in the source, with nothing left of the counter. *)
Lemma push_at_unfold p self s :
  push_at W p self s = push_body W (push_at W) p self s.
Proof.
  unfold push_at at 1.
  destruct (height self) as [|n] eqn:Hh;
    [destruct self; discriminate|].
  cbn [push_fuel]. apply (push_body_ext _ _ n); [lia|].
  intros c q s' Hc. unfold push_at. apply push_fuel_enough; lia.
Qed.

Lemma push_at_plan : walks W (push_at W).
Proof. intros q c s. apply push_fuel_plan. Qed.
End Fuel.

(** ** The order of a plan *)

Section OrderedPairs.
Context {A : Type} (R : A -> A -> Prop).

Lemma FOP_app l1 l2 :
  ForallOrdPairs R l1 -> ForallOrdPairs R l2 ->
  (forall x y, In x l1 -> In y l2 -> R x y) ->
  ForallOrdPairs R (l1 ++ l2).
Proof.
  induction 1 as [|a l1 Ha _ IH]; intros H2 Hx; [exact H2|].
  cbn [app]. constructor.
  - apply Forall_app. split; [exact Ha|].
    apply Forall_forall. intros y Hy. apply Hx; [now left | exact Hy].
  - apply IH; [exact H2|]. intros x y Hin. apply Hx. now right.
Qed.

Lemma FOP_split l1 x l2 :
  ForallOrdPairs R (l1 ++ x :: l2) ->
  (forall y, In y l1 -> R y x) /\ (forall y, In y l2 -> R x y).
Proof.
  induction l1 as [|a l1 IH]; cbn [app]; intros H; inversion H; subst.
  - split; [intros y []|]. now apply Forall_forall.
  - destruct (IH H3) as [Hl Hr]. split; [|exact Hr].
    intros y [<-|Hy]; [|now apply Hl].
    rewrite Forall_forall in H2. apply H2. apply in_or_app. right. now left.
Qed.

Lemma in_concat_indexed {B : Type} (f : nat -> B -> list A) l :
  forall i x,
    In x (concat_indexed f i l) <->
    exists j c, nth_error l j = Some c /\ In x (f (i + j) c).
Proof.
  induction l as [|b l IH]; intros i x; cbn [concat_indexed].
  - split; [intros [] | intros (j & c & H & _)]. now destruct j.
  - rewrite in_app_iff, IH. split.
    + intros [H | (j & c & Hn & H)].
      * exists 0, b. rewrite Nat.add_0_r. now split.
      * exists (S j), c. rewrite Nat.add_succ_r. now split.
    + intros ([|j] & c & Hn & H).
      * left. injection Hn as <-. now rewrite Nat.add_0_r in H.
      * right. exists j, c. rewrite Nat.add_succ_r in H. now split.
Qed.

Lemma FOP_concat_indexed {B : Type} (f : nat -> B -> list A) l :
  forall i,
    (forall j c, nth_error l j = Some c -> ForallOrdPairs R (f (i + j) c)) ->
    (forall j k c d x y,
        j < k -> nth_error l j = Some c -> nth_error l k = Some d ->
        In x (f (i + j) c) -> In y (f (i + k) d) -> R x y) ->
    ForallOrdPairs R (concat_indexed f i l).
Proof.
  induction l as [|b l IH]; intros i Hin Hcross; cbn [concat_indexed];
    [constructor|].
  apply FOP_app.
  - specialize (Hin 0 b eq_refl). now rewrite Nat.add_0_r in Hin.
  - apply IH.
    + intros j c Hj. specialize (Hin (S j) c Hj).
      now rewrite Nat.add_succ_r in Hin.
    + intros j k c d x y Hjk Hj Hk Hx Hy.
      apply (Hcross (S j) (S k) c d); try assumption; try lia;
        now rewrite Nat.add_succ_r.
  - intros x y Hx Hy. apply in_concat_indexed in Hy.
    destruct Hy as (k & d & Hk & Hy).
    apply (Hcross 0 (S k) b d); try assumption; try lia;
      try reflexivity.
    + now rewrite Nat.add_0_r.
    + now rewrite Nat.add_succ_r.
Qed.
End OrderedPairs.

Lemma path_not_longer (p r : path) i : p <> p ++ i :: r.
Proof.
  intros H. apply (f_equal (@List.length nat)) in H.
  rewrite length_app in H. cbn [List.length] in H. lia.
Qed.

Lemma path_branch (p r r' : path) i j :
  p ++ i :: r = p ++ j :: r' -> i = j.
Proof. intros H. apply app_inv_head in H. now injection H. Qed.

Lemma must_precede_owner a b :
  must_precede a b -> exists r, owner b = owner a ++ r.
Proof.
  intros [(p & i & -> & ->) | (p & i & -> & j & r & H)].
  - exists []. cbn. now rewrite app_nil_r.
  - exists (j :: r). exact H.
Qed.

Lemma in_order_incomparable x y :
  (forall r, owner x <> owner y ++ r) -> in_order x y.
Proof.
  intros H. split.
  - intros ->. apply (H []). now rewrite app_nil_r.
  - intros Hm. destruct (must_precede_owner _ _ Hm) as [r Hr]. now apply (H r).
Qed.

Lemma in_order_same_owner x y :
  owner x = owner y -> x <> y -> (forall q, y <> DoCreateTask q) ->
  in_order x y.
Proof.
  intros Ho Hne Hy. split; [exact Hne|].
  intros [(p & i & -> & _) | (p & i & -> & j & r & H)].
  - now apply (Hy p).
  - cbn [owner] in Ho. rewrite Ho in H. now apply path_not_longer in H.
Qed.

Lemma in_item_steps p cl i x :
  In x (item_steps p i cl) ->
  exists j, i <= j /\
            (x = DoCreateChecklistItem p j \/ x = DoAssignChecklistId p j).
Proof.
  unfold item_steps. rewrite in_concat_indexed.
  intros (j & c & _ & H). exists (i + j). split; [lia|].
  destruct (is_named c); [|contradiction].
  destruct H as [<-|[<-|[]]]; [now left | now right].
Qed.

Lemma item_steps_in_order p cl i :
  ForallOrdPairs in_order (item_steps p i cl).
Proof.
  unfold item_steps. apply FOP_concat_indexed.
  - intros j c _. destruct (is_named c); [|constructor].
    constructor; [|constructor; constructor].
    constructor; [|constructor].
    apply in_order_same_owner; [reflexivity | discriminate | discriminate].
  - intros j k c d x y Hjk _ _ Hx Hy.
    destruct (is_named c); [|contradiction].
    destruct (is_named d); [|contradiction].
    destruct Hx as [<-|[<-|[]]]; destruct Hy as [<-|[<-|[]]];
      (apply in_order_same_owner;
       [reflexivity
       | intros H; first [discriminate H | injection H; lia]
       | discriminate]).
Qed.

Lemma preorder_owner t :
  forall p x, In x (preorder p t) -> exists r, owner x = p ++ r.
Proof.
  induction t as [nm cl pr i ci IH] using Task_nested_ind.
  intros p x. rewrite preorder_unfold, in_app_iff. cbn [checklist].
  intros [H|H].
  - exists []. rewrite app_nil_r.
    destruct (is_named _); [|contradiction].
    destruct H as [<-|[<-|H]]; try reflexivity.
    apply in_item_steps in H. destruct H as (j & _ & [-> | ->]); reflexivity.
  - apply in_concat_indexed in H. destruct H as (j & c & Hj & H).
    rewrite Forall_forall in IH.
    destruct (IH c (nth_error_In _ _ Hj) _ _ H) as [r Hr].
    exists (j :: r). rewrite Hr, <- app_assoc. reflexivity.
Qed.

Lemma own_steps_owner p t x :
  In x (if is_named t
        then DoCreateTask p :: DoAssignId p :: item_steps p 0 (checklist t)
        else []) ->
  owner x = p.
Proof.
  destruct (is_named t); [|contradiction].
  intros [<-|[<-|H]]; try reflexivity.
  apply in_item_steps in H. destruct H as (j & _ & [-> | ->]); reflexivity.
Qed.

Lemma preorder_in_order t :
  forall p, ForallOrdPairs in_order (preorder p t).
Proof.
  induction t as [nm cl pr i ci IH] using Task_nested_ind.
  intros p. rewrite preorder_unfold. cbn [checklist].
  rewrite Forall_forall in IH. apply FOP_app.
  - destruct (is_named _); [|constructor].
    constructor; [|constructor; [|apply item_steps_in_order]].
    + constructor.
      * apply in_order_same_owner; [reflexivity | discriminate | discriminate].
      * apply Forall_forall. intros y Hy. apply in_item_steps in Hy.
        destruct Hy as (j & _ & [-> | ->]);
          (apply in_order_same_owner;
           [reflexivity | discriminate | discriminate]).
    + apply Forall_forall. intros y Hy. apply in_item_steps in Hy.
      destruct Hy as (j & _ & [-> | ->]);
        (apply in_order_same_owner;
         [reflexivity | discriminate | discriminate]).
  - apply FOP_concat_indexed.
    + intros j c Hj. apply IH. eapply nth_error_In; eassumption.
    + intros j k c d x y Hjk _ _ Hx Hy.
      destruct (preorder_owner _ _ _ Hx) as [rx Hrx].
      destruct (preorder_owner _ _ _ Hy) as [ry Hry].
      apply in_order_incomparable. intros r. rewrite Hrx, Hry.
      rewrite <- !app_assoc. cbn [app Nat.add]. intros H.
      apply path_branch in H. lia.
  - intros x y Hx Hy. apply own_steps_owner in Hx.
    apply in_concat_indexed in Hy. destruct Hy as (k & d & _ & Hy).
    destruct (preorder_owner _ _ _ Hy) as [ry Hry].
    apply in_order_incomparable. intros r. rewrite Hx, Hry.
    rewrite <- !app_assoc. cbn [app]. apply path_not_longer.
Qed.

Lemma FOP_weaken {A : Type} (R R' : A -> A -> Prop) l :
  (forall x y, R x y -> R' x y) ->
  ForallOrdPairs R l -> ForallOrdPairs R' l.
Proof.
  intros HR. induction 1 as [|a l Ha _ IH]; constructor; [|exact IH].
  eapply Forall_impl; [|exact Ha]. intros y. apply HR.
Qed.

Lemma preorder_NoDup p t : NoDup (preorder p t).
Proof.
  apply NoDup_iff_ForallOrdPairs.
  apply (FOP_weaken in_order); [|apply preorder_in_order].
  intros x y [H _]. exact H.
Qed.

Lemma preorder_item_has_task t :
  forall p q i,
    In (DoCreateChecklistItem q i) (preorder p t) ->
    In (DoCreateTask q) (preorder p t).
Proof.
  induction t as [nm cl pr i0 ci IH] using Task_nested_ind.
  intros p q i. rewrite preorder_unfold, !in_app_iff. cbn [checklist].
  intros [H|H].
  - left. pose proof (own_steps_owner _ _ _ H) as Ho. cbn [owner] in Ho.
    subst q. destruct (is_named _); [now left | contradiction].
  - right. apply in_concat_indexed in H. destruct H as (j & c & Hj & H).
    apply in_concat_indexed. exists j, c. split; [exact Hj|].
    rewrite Forall_forall in IH.
    apply (IH c (nth_error_In _ _ Hj) _ q i). exact H.
Qed.

(** In every beginning of a plan, an item call comes after the creation of
    its parent and before every step taken below that parent. *)
Lemma plan_prefix_order p0 t l1 q i l2 rest :
  preorder p0 t = (l1 ++ DoCreateChecklistItem q i :: l2) ++ rest ->
  In (DoCreateTask q) l1 /\ (forall x, below q x -> ~ In x l1).
Proof.
  intros Hplan. rewrite <- app_assoc in Hplan. cbn [app] in Hplan.
  pose proof (preorder_in_order t p0) as Hord. rewrite Hplan in Hord.
  destruct (FOP_split _ _ _ _ Hord) as [Hbefore Hafter].
  split.
  - assert (Hin : In (DoCreateTask q) (preorder p0 t)).
    { apply (preorder_item_has_task t p0 q i). rewrite Hplan.
      apply in_or_app. right. now left. }
    rewrite Hplan in Hin. apply in_app_or in Hin.
    destruct Hin as [Hin | [Heq | Hin]]; [exact Hin | discriminate |].
    destruct (Hafter _ Hin) as [_ Hno]. exfalso. apply Hno.
    left. now exists q, i.
  - intros x Hx Hin. destruct (Hbefore _ Hin) as [_ Hno]. apply Hno.
    right. now exists q, i.
Qed.

(** ** Claims on the walk *)

(** C5.  Whatever the service answers, the calls and assignments of a push
    are a beginning of the pre-order plan of the tree, and the whole plan
    when no exception ends the walk.  In particular, before an item call
    for a child of the task at [p] there is the call that creates the task
    at [p], and there is no call (and no assignment) made by the push of a
    task strictly below [p]: the item calls of a parent follow its own
    creation and precede everything done while recursing into its
    children. *)
Theorem push_walk_is_preorder :
  forall (W : Outside) (t : Task) (s : state W),
    exists new rest,
      log (after (push W t s)) = log s ++ new /\
      map step_of new ++ rest = preorder [] t /\
      (raised (push W t s) = None -> rest = []) /\
      (forall l1 p i l2,
          map step_of new = l1 ++ DoCreateChecklistItem p i :: l2 ->
          In (DoCreateTask p) l1 /\
          forall x, below p x -> ~ In x l1).
Proof.
  intros W t s.
  destruct (push_at_plan W [] t s) as [_ (new & rest & Hlog & Hplan & Hrest)].
  exists new, rest. split; [exact Hlog|]. split; [exact Hplan|].
  split; [exact Hrest|]. intros l1 p i l2 Hsplit.
  apply (plan_prefix_order [] t l1 p i l2 rest).
  now rewrite <- Hsplit, Hplan.
Qed.

(** The walk of the end-to-end example on the stand-in service: it ends
    normally after these steps. *)
Example demo_walk :
  raised (push demo example_tree demo_start) = None /\
  map step_of (log (after (push demo example_tree demo_start)))
  = [DoCreateTask [0]; DoAssignId [0];
     DoCreateTask [1]; DoAssignId [1];
     DoCreateChecklistItem [1] 0; DoAssignChecklistId [1] 0;
     DoCreateChecklistItem [1] 1; DoAssignChecklistId [1] 1;
     DoCreateTask [1; 0]; DoAssignId [1; 0];
     DoCreateTask [1; 1]; DoAssignId [1; 1]].
Proof. split; reflexivity. Qed.

(** *** Identifiers of checklist items *)


Section Items.
Context (W : Outside).
Implicit Types s : state W.


Lemma push_body_checklist_id push p self s :
  checklist_id (res (push_body W push p self s)) = checklist_id self.
Proof.
  unfold push_body. destruct (named self) as [nm|]; [|reflexivity].
  destruct (post_task W p (nm ++ progress_marker) (note W)
              (py_str W (priority self)) s) as [r s1].
  destruct (resp <- r ;; getitem resp "id") as [v|e]; [|reflexivity].
  cbn [checklist set_checklist set_id id].
  match goal with
  | |- context [raised ?o] => destruct (raised o)
  end; reflexivity.
Qed.


Lemma push_each_checklist_ids push :
  (forall q c s, checklist_id (res (push q c s)) = checklist_id c) ->
  forall cl p i s,
    map checklist_id (res (push_each W push p i cl s))
    = map checklist_id cl.
Proof.
  intros Hpush. induction cl as [|c cl IH]; intros p i s; [reflexivity|].
  cbn [push_each]. destruct (raised (push (p ++ [i]) c s));
    cbn [res map]; rewrite Hpush; [reflexivity|]. now rewrite IH.
Qed.
End Items.

Lemma nth_error_map_eq {A B : Type} (f : A -> B) l l' j a :
  map f l' = map f l -> nth_error l j = Some a ->
  exists a', nth_error l' j = Some a' /\ f a' = f a.
Proof.
  intros Hmap Hj.
  pose proof (map_nth_error f _ _ Hj) as H. rewrite <- Hmap in H.
  rewrite nth_error_map in H.
  destruct (nth_error l' j) as [a'|]; [|discriminate].
  exists a'. split; [reflexivity|]. now injection H.
Qed.









(** ** Assignments stay in place *)

Section InPlace.
Context (W : Outside).
Implicit Types s : state W.

Lemma post_checklist_in_place p v cl :
  forall k i s,
    exists new,
      log (after (post_checklist W p v k i cl s)) = log s ++ new /\
      Forall
        (fun ev =>
           match ev with
           | CreateChecklistItem _ _ _ _ _ => True
           | AssignChecklistId q j w =>
               q = p /\
               exists j' c',
                 j = i + j' /\
                 nth_error (res (post_checklist W p v k i cl s)) j' = Some c' /\
                 checklist_id c' = w
           | _ => False
           end) new.
Proof.
  induction cl as [|c cl IH]; intros k i s.
  - exists []. rewrite app_nil_r. split; [reflexivity | constructor].
  - cbn [post_checklist]. destruct (named c) as [text|].
    + unfold post_checklist_item.
      destruct (tasks_checklist_post W v text (remote s)) as [r a].
      destruct (resp <- r ;; checklist_entry_id resp (S k)) as [cid|e];
        cbn [res raised after].
      * match goal with
        | |- context [post_checklist W p v (S k) (S i) cl ?s2] =>
            destruct (IH (S k) (S i) s2) as (new & Hlog & Hall)
        end.
        exists (CreateChecklistItem p i v text r
                :: AssignChecklistId p i cid :: new).
        split.
        -- rewrite Hlog. unfold record. cbn [log].
           rewrite <- !app_assoc. reflexivity.
        -- constructor; [exact I|]. constructor.
           ++ split; [reflexivity|].
              exists 0, (set_checklist_id cid c).
              rewrite Nat.add_0_r. repeat split.
           ++ eapply Forall_impl; [|exact Hall].
              intros [| | |q j w]; try tauto.
              intros (-> & j' & c' & -> & Hnth & Hw). split; [reflexivity|].
              exists (S j'), c'. rewrite Nat.add_succ_r. repeat split; assumption.
      * exists [CreateChecklistItem p i v text r]. split; [reflexivity|].
        constructor; [exact I | constructor].
    + cbn [res raised after]. destruct (IH k (S i) s) as (new & Hlog & Hall).
      exists new. split; [exact Hlog|].
      eapply Forall_impl; [|exact Hall].
      intros [| | |q j w]; try tauto.
      intros (-> & j' & c' & -> & Hnth & Hw). split; [reflexivity|].
      exists (S j'), c'. rewrite Nat.add_succ_r. repeat split; assumption.
Qed.

Lemma push_each_in_place push :
  keeps W push ->
  forall cl p i s,
    exists new,
      log (after (push_each W push p i cl s)) = log s ++ new /\
      Forall
        (fun ev =>
           exists j c',
             nth_error (res (push_each W push p i cl s)) j = Some c' /\
             in_place (p ++ [i + j]) c' ev) new.
Proof.
  intros Hpush. induction cl as [|c cl IH]; intros p i s.
  - exists []. rewrite app_nil_r. split; [reflexivity | constructor].
  - cbn [push_each].
    destruct (Hpush (p ++ [i]) c s) as (_ & new1 & Hlog1 & Hall1).
    assert (Hhead : forall l,
               Forall (fun ev => exists j c',
                           nth_error (res (push (p ++ [i]) c s) :: l) j = Some c' /\
                           in_place (p ++ [i + j]) c' ev) new1).
    { intros l. eapply Forall_impl; [|exact Hall1]. intros ev Hev.
      exists 0, (res (push (p ++ [i]) c s)). rewrite Nat.add_0_r. now split. }
    destruct (raised (push (p ++ [i]) c s)); cbn [res raised after].
    + exists new1. split; [exact Hlog1 | apply Hhead].
    + destruct (IH p (S i) (after (push (p ++ [i]) c s)))
        as (new2 & Hlog2 & Hall2).
      exists (new1 ++ new2). split.
      * rewrite Hlog2, Hlog1, app_assoc. reflexivity.
      * apply Forall_app. split; [apply Hhead|].
        eapply Forall_impl; [|exact Hall2].
        intros ev (j & c' & Hnth & Hev). exists (S j), c'.
        rewrite Nat.add_succ_r. now split.
Qed.

Lemma in_place_child p j t c' ev :
  nth_error (checklist t) j = Some c' ->
  in_place (p ++ [j]) c' ev -> in_place p t ev.
Proof.
  intros Hnth. destruct ev as [| q v | | q i v]; cbn [in_place]; try tauto.
  - intros (r & n & -> & Hat & Hv). exists (j :: r), n.
    rewrite <- app_assoc. cbn [app at_path]. rewrite Hnth. repeat split; assumption.
  - intros (r & n & -> & Hat & Hv). exists (j :: r), n.
    rewrite <- app_assoc. cbn [app at_path]. rewrite Hnth. repeat split; assumption.
Qed.

Lemma push_body_keeps push : keeps W push -> keeps W (push_body W push).
Proof.
  intros Hpush p self s. split; [apply push_body_checklist_id|].
  unfold push_body.
  destruct (named self) as [nm|].
  - unfold post_task.
    destruct (tasks_user_post W "todo" (nm ++ progress_marker) (note W)
                (py_str W (priority self)) (remote s)) as [r a].
    destruct (resp <- r ;; getitem resp "id") as [v|e];
      [|exists [CreateTask p (nm ++ progress_marker)%string (note W)
                  (py_str W (priority self)) r];
        split; [reflexivity | constructor; [exact I | constructor]]].
    cbn [checklist set_checklist set_id id].
    match goal with
    | |- context [post_checklist W p v 0 0 (checklist self) ?s2] =>
        set (o1 := post_checklist W p v 0 0 (checklist self) s2);
        destruct (post_checklist_in_place p v (checklist self) 0 0 s2)
          as (new1 & Hlog1 & Hall1)
    end.
    fold o1 in Hlog1, Hall1.
    destruct (push_each_in_place push Hpush (res o1) p 0 (after o1))
      as (new2 & Hlog2 & Hall2).
    pose proof (push_each_checklist_ids W push
                  (fun q c s' => proj1 (Hpush q c s')) (res o1) p 0 (after o1))
      as Hids.
    destruct (raised o1); cbn [res raised after].
    + exists (CreateTask p (nm ++ progress_marker)%string (note W)
                (py_str W (priority self)) r :: AssignId p v :: new1).
      split.
      * rewrite Hlog1. unfold record. cbn [log].
        rewrite <- !app_assoc. reflexivity.
      * constructor; [exact I|]. constructor.
        -- exists [], (set_checklist (res o1) (set_id v self)).
           rewrite app_nil_r. repeat split.
        -- eapply Forall_impl; [|exact Hall1].
           intros [| | |q j w]; try tauto.
           intros (-> & j' & c' & -> & Hnth & Hw).
           exists [], c'. rewrite app_nil_r. cbn [app at_path checklist
             set_checklist Nat.add]. rewrite Hnth. repeat split; assumption.
    + exists (CreateTask p (nm ++ progress_marker)%string (note W)
                (py_str W (priority self)) r :: AssignId p v :: new1 ++ new2).
      split.
      * rewrite Hlog2, Hlog1. unfold record. cbn [log].
        rewrite <- !app_assoc. reflexivity.
      * constructor; [exact I|]. constructor.
        -- eexists [], _. rewrite app_nil_r. repeat split.
        -- apply Forall_app. split.
           ++ eapply Forall_impl; [|exact Hall1].
              intros [| | |q j w]; try tauto.
              intros (-> & j' & c' & -> & Hnth & Hw).
              destruct (nth_error_map_eq checklist_id _ _ _ _ Hids Hnth)
                as (c2 & Hnth2 & Hsame).
              exists [], c2. rewrite app_nil_r.
              cbn [app at_path checklist set_checklist Nat.add].
              rewrite Hnth2. repeat split. now rewrite Hsame.
           ++ eapply Forall_impl; [|exact Hall2].
              intros ev (j & c' & Hnth & Hev).
              apply (in_place_child p j _ c'); [exact Hnth | exact Hev].
  - destruct (push_each_in_place push Hpush (checklist self) p 0 s)
      as (new2 & Hlog2 & Hall2).
    cbn [res raised after]. exists new2. split; [exact Hlog2|].
    eapply Forall_impl; [|exact Hall2].
    intros ev (j & c' & Hnth & Hev).
    apply (in_place_child p j _ c'); [exact Hnth | exact Hev].
Qed.

Lemma push_fuel_keeps fuel : keeps W (push_fuel W fuel).
Proof.
  induction fuel as [|fuel IH].
  - intros p self s. cbn [push_fuel res raised after].
    split; [reflexivity|]. exists []. rewrite app_nil_r.
    split; [reflexivity | constructor].
  - cbn [push_fuel]. now apply push_body_keeps.
Qed.

Lemma push_at_keeps : keeps W (push_at W).
Proof. intros q c s. apply push_fuel_keeps. Qed.
End InPlace.

(** ** What a push leaves as it was *)

Lemma id_spared_mono new new' p n n' :
  (forall ev, In ev new -> In ev new') ->
  id_spared new p n n' -> id_spared new' p n n'.
Proof. intros Hsub [H|[Hn H]]; [now left | right; split; auto]. Qed.

Lemma checklist_id_spared_mono new new' q c r n n' :
  (forall ev, In ev new -> In ev new') ->
  checklist_id_spared new q c r n n' ->
  checklist_id_spared new' q c r n n'.
Proof.
  intros Hsub [H|(Hn & r0 & i & pn & Hr & Hat & Hpn & Hin)]; [now left|].
  right. split; [exact Hn|]. exists r0, i, pn. repeat split; auto.
Qed.

Lemma at_path_set_checklist_id w c r :
  at_path (set_checklist_id w c) r
  = match r with
    | [] => Some (set_checklist_id w c)
    | _ :: _ => at_path c r
    end.
Proof. destruct r; reflexivity. Qed.

Section Spares.
Context (W : Outside).
Implicit Types s : state W.

Lemma post_checklist_spares p v cl :
  forall k i s,
    exists new,
      log (after (post_checklist W p v k i cl s)) = log s ++ new /\
      forall j c,
        nth_error cl j = Some c ->
        exists c1,
          nth_error (res (post_checklist W p v k i cl s)) j = Some c1 /\
          (c1 = c \/
           (is_named c = true /\
            c1 = set_checklist_id (checklist_id c1) c /\
            In (AssignChecklistId p (i + j) (checklist_id c1)) new)).
Proof.
  induction cl as [|c cl IH]; intros k i s.
  - exists []. rewrite app_nil_r. split; [reflexivity|].
    intros [|j]; discriminate.
  - cbn [post_checklist]. destruct (named c) as [text|] eqn:Hn.
    + unfold post_checklist_item.
      destruct (tasks_checklist_post W v text (remote s)) as [r a].
      destruct (resp <- r ;; checklist_entry_id resp (S k)) as [cid|e];
        cbn [res raised after].
      * match goal with
        | |- context [post_checklist W p v (S k) (S i) cl ?s2] =>
            destruct (IH (S k) (S i) s2) as (new & Hlog & Hall)
        end.
        exists (CreateChecklistItem p i v text r
                :: AssignChecklistId p i cid :: new).
        split.
        -- rewrite Hlog. unfold record. cbn [log].
           rewrite <- !app_assoc. reflexivity.
        -- intros [|j] c0 Hj; cbn [nth_error] in Hj |- *.
           ++ injection Hj as <-. exists (set_checklist_id cid c).
              split; [reflexivity|]. right. rewrite Nat.add_0_r.
              split; [unfold is_named; now rewrite Hn|].
              split; [reflexivity|]. right. now left.
           ++ destruct (Hall j c0 Hj) as (c1 & Hnth & Hc1).
              exists c1. split; [exact Hnth|].
              destruct Hc1 as [->|(Hnamed & Hset & Hin)]; [now left|].
              right. split; [exact Hnamed|]. split; [exact Hset|].
              right. right. now rewrite Nat.add_succ_r.
      * exists [CreateChecklistItem p i v text r]. split; [reflexivity|].
        intros j c0 Hj. exists c0. split; [exact Hj | now left].
    + cbn [res raised after]. destruct (IH k (S i) s) as (new & Hlog & Hall).
      exists new. split; [exact Hlog|].
      intros [|j] c0 Hj; cbn [nth_error] in Hj |- *.
      * injection Hj as <-. exists c. split; [reflexivity | now left].
      * destruct (Hall j c0 Hj) as (c1 & Hnth & Hc1).
        exists c1. split; [exact Hnth|].
        destruct Hc1 as [->|(Hnamed & Hset & Hin)]; [now left|].
        right. split; [exact Hnamed|]. split; [exact Hset|].
        now rewrite Nat.add_succ_r.
Qed.

Lemma push_each_spares push :
  spares W push ->
  forall cl p i s,
    exists new,
      log (after (push_each W push p i cl s)) = log s ++ new /\
      forall j c,
        nth_error cl j = Some c ->
        exists c',
          nth_error (res (push_each W push p i cl s)) j = Some c' /\
          forall r n,
            at_path c r = Some n ->
            exists n',
              at_path c' r = Some n' /\
              id_spared new ((p ++ [i + j]) ++ r) n n' /\
              checklist_id_spared new (p ++ [i + j]) c r n n'.
Proof.
  intros Hpush. induction cl as [|c cl IH]; intros p i s.
  - exists []. rewrite app_nil_r. split; [reflexivity|].
    intros [|j]; discriminate.
  - cbn [push_each].
    destruct (Hpush (p ++ [i]) c s) as (new1 & Hlog1 & Hall1).
    destruct (raised (push (p ++ [i]) c s)); cbn [res raised after].
    + exists new1. split; [exact Hlog1|].
      intros [|j] c0 Hj; cbn [nth_error] in Hj |- *.
      * injection Hj as <-. exists (res (push (p ++ [i]) c s)).
        split; [reflexivity|]. rewrite Nat.add_0_r. exact Hall1.
      * exists c0. split; [exact Hj|]. intros r n Hat. exists n.
        split; [exact Hat|]. split; now left.
    + destruct (IH p (S i) (after (push (p ++ [i]) c s)))
        as (new2 & Hlog2 & Hall2).
      exists (new1 ++ new2). split.
      * rewrite Hlog2, Hlog1, app_assoc. reflexivity.
      * intros [|j] c0 Hj; cbn [nth_error] in Hj |- *.
        -- injection Hj as <-. exists (res (push (p ++ [i]) c s)).
           split; [reflexivity|]. rewrite Nat.add_0_r.
           intros r n Hat. destruct (Hall1 r n Hat) as (n' & Hat' & Hid & Hcid).
           exists n'. split; [exact Hat'|]. split.
           ++ eapply id_spared_mono; [|exact Hid].
              intros ev Hev. apply in_or_app. now left.
           ++ eapply checklist_id_spared_mono; [|exact Hcid].
              intros ev Hev. apply in_or_app. now left.
        -- destruct (Hall2 j c0 Hj) as (c' & Hnth & Hc').
           exists c'. split; [exact Hnth|]. rewrite Nat.add_succ_r.
           intros r n Hat. destruct (Hc' r n Hat) as (n' & Hat' & Hid & Hcid).
           exists n'. split; [exact Hat'|]. split.
           ++ eapply id_spared_mono; [|exact Hid].
              intros ev Hev. apply in_or_app. now right.
           ++ eapply checklist_id_spared_mono; [|exact Hcid].
              intros ev Hev. apply in_or_app. now right.
Qed.

(** From a child to its parent: [c] is the child of index [j] of [self],
    [c1] what the loop over the items of [self] made of it, and [c'] what
    the push of [c1] left. *)
Lemma spared_child new p self j c c1 c' :
  nth_error (checklist self) j = Some c ->
  (c1 = c \/
   (is_named self = true /\ is_named c = true /\
    c1 = set_checklist_id (checklist_id c1) c /\
    In (AssignChecklistId p j (checklist_id c1)) new)) ->
  (forall r n1,
      at_path c1 r = Some n1 ->
      exists n',
        at_path c' r = Some n' /\
        id_spared new ((p ++ [j]) ++ r) n1 n' /\
        checklist_id_spared new (p ++ [j]) c1 r n1 n') ->
  forall r n,
    at_path c r = Some n ->
    exists n',
      at_path c' r = Some n' /\
      id_spared new (p ++ j :: r) n n' /\
      checklist_id_spared new p self (j :: r) n n'.
Proof.
  intros Hj Hc1 Hpush r n Hat.
  assert (Hsame : forall r0 pn,
             at_path c1 r0 = Some pn ->
             exists pn0, at_path c r0 = Some pn0 /\ is_named pn0 = is_named pn).
  { intros r0 pn Hpn. destruct Hc1 as [->|(_ & _ & Hset & _)];
      [now exists pn|].
    rewrite Hset, at_path_set_checklist_id in Hpn. destruct r0 as [|a r0].
    - injection Hpn as <-. exists c. split; reflexivity.
    - now exists pn. }
  assert (Hn1 : exists n1,
             at_path c1 r = Some n1 /\ id n1 = id n /\
             is_named n1 = is_named n /\
             (checklist_id n1 = checklist_id n \/
              (r = [] /\ is_named self = true /\ is_named n = true /\
               In (AssignChecklistId p j (checklist_id n1)) new))).
  { destruct Hc1 as [->|(Hself & Hc & Hset & Hin)].
    - exists n. repeat split; [exact Hat | now left].
    - destruct r as [|a r].
      + cbn [at_path] in Hat |- *. injection Hat as <-. exists c1.
        split; [reflexivity|]. split; [now rewrite Hset|].
        split; [now rewrite Hset|]. right. repeat split; assumption.
      + exists n. rewrite Hset, at_path_set_checklist_id.
        repeat split; [exact Hat | now left]. }
  destruct Hn1 as (n1 & Hat1 & Hid1 & Hnamed1 & Hcid1).
  destruct (Hpush r n1 Hat1) as (n' & Hat' & Hid & Hcid).
  exists n'. split; [exact Hat'|]. split.
  - destruct Hid as [Hid|[Hn Hin]].
    + left. now rewrite Hid.
    + right. split; [now rewrite <- Hnamed1|].
      now rewrite <- app_assoc in Hin.
  - destruct Hcid as [Hcid|(Hn & r0 & i & pn & Hr & Hpn & Hpnn & Hin)].
    + destruct Hcid1 as [Hcid1|(-> & Hself & Hnn & Hin)].
      * left. now rewrite Hcid.
      * right. split; [exact Hnn|]. exists [], j, self.
        rewrite app_nil_r, Hcid. repeat split; assumption.
    + right. split; [now rewrite <- Hnamed1|].
      destruct (Hsame r0 pn Hpn) as (pn0 & Hpn0 & Hsame0).
      exists (j :: r0), i, pn0. split; [now rewrite Hr|].
      split; [cbn [at_path]; now rewrite Hj|].
      split; [now rewrite Hsame0|].
      now rewrite <- app_assoc in Hin.
Qed.

Lemma push_body_spares push : spares W push -> spares W (push_body W push).
Proof.
  intros Hpush p self s.
  assert (Hidle : forall new (t : Task) r n,
             at_path t r = Some n ->
             exists n',
               at_path t r = Some n' /\
               id_spared new (p ++ r) n n' /\
               checklist_id_spared new p t r n n').
  { intros new t r n Hat. exists n. split; [exact Hat|]. split; now left. }
  unfold push_body. destruct (named self) as [nm|] eqn:Hnm.
  - assert (Hself : is_named self = true)
      by (unfold is_named; now rewrite Hnm).
    unfold post_task.
    destruct (tasks_user_post W "todo" (nm ++ progress_marker) (note W)
                (py_str W (priority self)) (remote s)) as [r0 a].
    destruct (resp <- r0 ;; getitem resp "id") as [v|e];
      [|exists [CreateTask p (nm ++ progress_marker)%string (note W)
                  (py_str W (priority self)) r0];
        split; [reflexivity | apply Hidle]].
    cbn [checklist set_checklist set_id id].
    match goal with
    | |- context [post_checklist W p v 0 0 (checklist self) ?s2] =>
        set (o1 := post_checklist W p v 0 0 (checklist self) s2);
        destruct (post_checklist_spares p v (checklist self) 0 0 s2)
          as (new1 & Hlog1 & Hall1)
    end.
    fold o1 in Hlog1, Hall1.
    destruct (push_each_spares push Hpush (res o1) p 0 (after o1))
      as (new2 & Hlog2 & Hall2).
    set (call := CreateTask p (nm ++ progress_marker)%string (note W)
                   (py_str W (priority self)) r0).
    assert (Htop : forall new cl,
               In (AssignId p v) new ->
               id_spared new (p ++ []) self
                 (set_checklist cl (set_id v self)) /\
               checklist_id_spared new p self [] self
                 (set_checklist cl (set_id v self))).
    { intros new cl Hin. split; [|now left].
      right. split; [exact Hself|]. now rewrite app_nil_r. }
    destruct (raised o1); cbn [res raised after].
    + exists (call :: AssignId p v :: new1). split.
      * rewrite Hlog1. unfold record. cbn [log].
        rewrite <- !app_assoc. reflexivity.
      * intros [|j r] n Hat.
        -- cbn [at_path] in Hat |- *. injection Hat as <-.
           eexists. split; [reflexivity|]. apply Htop. right. now left.
        -- cbn [at_path] in Hat.
           destruct (nth_error (checklist self) j) as [c|] eqn:Hj;
             [|discriminate].
           destruct (Hall1 j c Hj) as (c1 & Hnth1 & Hc1).
           cbn [at_path checklist set_checklist]. rewrite Hnth1.
           apply (spared_child _ p self j c c1 c1 Hj).
           ++ destruct Hc1 as [->|(Hc & Hset & Hin)]; [now left|].
              right. repeat split; try assumption. right. now right.
           ++ intros r1 n1 Hat1. exists n1. split; [exact Hat1|].
              split; now left.
           ++ exact Hat.
    + exists (call :: AssignId p v :: new1 ++ new2). split.
      * rewrite Hlog2, Hlog1. unfold record. cbn [log].
        rewrite <- !app_assoc. reflexivity.
      * intros [|j r] n Hat.
        -- cbn [at_path] in Hat |- *. injection Hat as <-.
           eexists. split; [reflexivity|]. apply Htop. right. now left.
        -- cbn [at_path] in Hat.
           destruct (nth_error (checklist self) j) as [c|] eqn:Hj;
             [|discriminate].
           destruct (Hall1 j c Hj) as (c1 & Hnth1 & Hc1).
           destruct (Hall2 j c1 Hnth1) as (c' & Hnth' & Hc').
           cbn [at_path checklist set_checklist]. rewrite Hnth'.
           apply (spared_child _ p self j c c1 c' Hj).
           ++ destruct Hc1 as [->|(Hc & Hset & Hin)]; [now left|].
              right. repeat split; try assumption. right. right.
              apply in_or_app. now left.
           ++ intros r1 n1 Hat1.
              destruct (Hc' r1 n1 Hat1) as (n' & Hat' & Hid & Hcid).
              exists n'. split; [exact Hat'|]. cbn [Nat.add] in Hid, Hcid.
              split.
              ** eapply id_spared_mono; [|exact Hid].
                 intros ev Hev. right. right. apply in_or_app. now right.
              ** eapply checklist_id_spared_mono; [|exact Hcid].
                 intros ev Hev. right. right. apply in_or_app. now right.
           ++ exact Hat.
  - destruct (push_each_spares push Hpush (checklist self) p 0 s)
      as (new2 & Hlog2 & Hall2).
    cbn [res raised after]. exists new2. split; [exact Hlog2|].
    intros [|j r] n Hat.
    + cbn [at_path] in Hat |- *. injection Hat as <-.
      eexists. split; [reflexivity|]. split; now left.
    + cbn [at_path] in Hat.
      destruct (nth_error (checklist self) j) as [c|] eqn:Hj;
        [|discriminate].
      destruct (Hall2 j c Hj) as (c' & Hnth' & Hc').
      cbn [at_path checklist set_checklist]. rewrite Hnth'.
      apply (spared_child _ p self j c c c' Hj); [now left | | exact Hat].
      exact Hc'.
Qed.

Lemma push_fuel_spares fuel : spares W (push_fuel W fuel).
Proof.
  induction fuel as [|fuel IH].
  - intros p self s. cbn [push_fuel res raised after].
    exists []. rewrite app_nil_r. split; [reflexivity|].
    intros r n Hat. exists n. split; [exact Hat|]. split; now left.
  - cbn [push_fuel]. now apply push_body_spares.
Qed.

Lemma push_at_spares : spares W (push_at W).
Proof. intros q c s. apply push_fuel_spares. Qed.
End Spares.

(** C8, as amended.  Whatever the service answers, and whether or not an
    exception ends the walk, the tree a push leaves has the names, the
    priorities and the children, in order, of the tree it started from: the
    tasks differ in [id] and [checklist_id] at most.  Among the assignments
    of the walk no two are to the same field of the same task, and every
    value assigned is the one its field holds when the walk ends: what a
    push stores, it neither replaces nor removes.  And a push changes no
    other field: the [id] of a task is the one it had, unless the task is
    named and the log has the assignment of its [id]; the [checklist_id]
    of a task is the one it had, unless the task and its parent are named
    and the log has the assignment of its [checklist_id]. *)
Theorem push_frame :
  forall (W : Outside) (t : Task) (s : state W),
    skeleton (res (push W t s)) = skeleton t /\
    exists new,
      log (after (push W t s)) = log s ++ new /\
      NoDup (filter is_assignment (map step_of new)) /\
      (forall p v,
          In (AssignId p v) new ->
          exists n, at_path (res (push W t s)) p = Some n /\ id n = v) /\
      (forall p i v,
          In (AssignChecklistId p i v) new ->
          exists n,
            at_path (res (push W t s)) (p ++ [i]) = Some n /\
            checklist_id n = v) /\
      (forall p n,
          at_path t p = Some n ->
          exists n',
            at_path (res (push W t s)) p = Some n' /\
            (id n' = id n \/
             (is_named n = true /\ In (AssignId p (id n')) new)) /\
            (checklist_id n' = checklist_id n \/
             (is_named n = true /\
              exists q i parent,
                p = q ++ [i] /\ at_path t q = Some parent /\
                is_named parent = true /\
                In (AssignChecklistId q i (checklist_id n')) new))).
Proof.
  intros W t s.
  destruct (push_at_plan W [] t s) as [Hsk (new & rest & Hlog & Hplan & _)].
  destruct (push_at_keeps W [] t s) as (_ & new' & Hlog' & Hall).
  destruct (push_at_spares W [] t s) as (new2 & Hlog2 & Hspared).
  unfold push. rewrite Hlog in Hlog', Hlog2.
  apply app_inv_head in Hlog'. apply app_inv_head in Hlog2. subst new' new2.
  split; [exact Hsk|]. exists new. split; [exact Hlog|].
  rewrite Forall_forall in Hall. split; [|split; [|split]].
  - apply NoDup_filter. apply (NoDup_app_remove_r _ rest).
    rewrite Hplan. apply preorder_NoDup.
  - intros p v Hin. destruct (Hall _ Hin) as (r & n & -> & Hat & Hv).
    now exists n.
  - intros p i v Hin. destruct (Hall _ Hin) as (r & n & -> & Hat & Hv).
    now exists n.
  - intros p n Hat. destruct (Hspared p n Hat) as (n' & Hat' & Hid & Hcid).
    exists n'. split; [exact Hat'|]. split; [exact Hid | exact Hcid].
Qed.

(** C8, as stated, fails on identifiers that are there before the push:
    the [id] of a named task is replaced by the one the service returns,
    and so is the [checklist_id] that a [checklist_id] entry of the
    document gave to a named child of a named task, in a tree without any
    [id]. *)
Lemma push_overwrites_identifiers :
  (id (mkTask (Some "a") [] default_priority (VStr "old") VNone) = VStr "old" /\
   raised (push demo (mkTask (Some "a") [] default_priority (VStr "old") VNone)
             demo_start) = None /\
   id (res (push demo (mkTask (Some "a") [] default_priority (VStr "old") VNone)
              demo_start)) <> VStr "old") /\
  (exists t b b',
      Task_init None
        (VList [VDict [("a", VList [VDict [("b",
                   VList [VDict [("checklist_id", VInt 5)]])]])]]) = Ok t /\
      at_path t [0; 0] = Some b /\ checklist_id b = VInt 5 /\
      raised (push demo t demo_start) = None /\
      at_path (res (push demo t demo_start)) [0; 0] = Some b' /\
      checklist_id b' = VStr "item:b").
Proof.
  split.
  - split; [reflexivity|]. split; [reflexivity|]. cbn. discriminate.
  - do 3 eexists. split; [reflexivity|]. split; [reflexivity|].
    split; [reflexivity|]. split; [reflexivity|]. split; reflexivity.
Qed.

(** ** The end-to-end example *)

(** The equations of the walk, one call of the service at a time: each
    outcome is taken apart where it is produced, so that running [push] on
    a tree that is known, against a service that is not, goes through the
    calls in order and splits on the outcome of each. *)
Section Stepwise.
Context (W : Outside).
Implicit Types s : state W.

Lemma push_each_nil push p i s :
  push_each W push p i [] s = {| res := []; raised := None; after := s |}.
Proof. reflexivity. Qed.

Lemma push_each_cons push p i c cl s :
  push_each W push p i (c :: cl) s
  = match push (p ++ [i]) c s with
    | {| res := c'; raised := Some e; after := s1 |} =>
        {| res := c' :: cl; raised := Some e; after := s1 |}
    | {| res := c'; raised := None; after := s1 |} =>
        match push_each W push p (S i) cl s1 with
        | {| res := cl'; raised := exc; after := s2 |} =>
            {| res := c' :: cl'; raised := exc; after := s2 |}
        end
    end.
Proof.
  cbn [push_each]. destruct (push (p ++ [i]) c s) as [c' [e|] s1];
    cbn [res raised after]; [reflexivity|].
  now destruct (push_each W push p (S i) cl s1).
Qed.

Lemma post_checklist_nil p v k i s :
  post_checklist W p v k i [] s
  = {| res := []; raised := None; after := s |}.
Proof. reflexivity. Qed.

Lemma post_checklist_cons_named p v k i c cl s text :
  named c = Some text ->
  post_checklist W p v k i (c :: cl) s
  = let (r, a) := tasks_checklist_post W v text (remote s) in
    match (resp <- r ;; checklist_entry_id resp (S k)) with
    | Err e =>
        {| res := c :: cl; raised := Some e;
           after := {| remote := a;
                       log := log s ++ [CreateChecklistItem p i v text r] |} |}
    | Ok cid =>
        match post_checklist W p v (S k) (S i) cl
                {| remote := a;
                   log := (log s ++ [CreateChecklistItem p i v text r])
                          ++ [AssignChecklistId p i cid] |} with
        | {| res := cl'; raised := exc; after := s2 |} =>
            {| res := set_checklist_id cid c :: cl'; raised := exc;
               after := s2 |}
        end
    end.
Proof.
  intros Hn. cbn [post_checklist]. rewrite Hn. unfold post_checklist_item.
  destruct (tasks_checklist_post W v text (remote s)) as [r a].
  destruct (resp <- r ;; checklist_entry_id resp (S k)) as [cid|e];
    [|reflexivity].
  unfold record. cbn [remote log].
  now destruct (post_checklist W p v (S k) (S i) cl _).
Qed.

Lemma push_at_unnamed p self s :
  named self = None ->
  push_at W p self s
  = match push_each W (push_at W) p 0 (checklist self) s with
    | {| res := cl'; raised := exc; after := s1 |} =>
        {| res := set_checklist cl' self; raised := exc; after := s1 |}
    end.
Proof.
  intros Hn. rewrite push_at_unfold. unfold push_body. rewrite Hn.
  now destruct (push_each W (push_at W) p 0 (checklist self) s).
Qed.

Lemma push_at_named p self s nm :
  named self = Some nm ->
  push_at W p self s
  = let (r, a) :=
      tasks_user_post W "todo" (nm ++ progress_marker) (note W)
        (py_str W (priority self)) (remote s) in
    match (resp <- r ;; getitem resp "id") with
    | Err e =>
        {| res := self; raised := Some e;
           after := {| remote := a;
                       log := log s
                              ++ [CreateTask p (nm ++ progress_marker)
                                    (note W) (py_str W (priority self)) r] |} |}
    | Ok v =>
        match post_checklist W p v 0 0 (checklist self)
                {| remote := a;
                   log := (log s
                           ++ [CreateTask p (nm ++ progress_marker) (note W)
                                 (py_str W (priority self)) r])
                          ++ [AssignId p v] |} with
        | {| res := cl1; raised := Some e; after := s1 |} =>
            {| res := set_checklist cl1 (set_id v self); raised := Some e;
               after := s1 |}
        | {| res := cl1; raised := None; after := s1 |} =>
            match push_each W (push_at W) p 0 cl1 s1 with
            | {| res := cl2; raised := exc; after := s2 |} =>
                {| res := set_checklist cl2
                            (set_checklist cl1 (set_id v self));
                   raised := exc; after := s2 |}
            end
        end
    end.
Proof.
  intros Hn. rewrite push_at_unfold. unfold push_body. rewrite Hn.
  unfold post_task.
  destruct (tasks_user_post W "todo" (nm ++ progress_marker) (note W)
              (py_str W (priority self)) (remote s)) as [r a].
  destruct (resp <- r ;; getitem resp "id") as [v|e]; [|reflexivity].
  unfold record. cbn [remote log id set_id checklist set_checklist].
  destruct (post_checklist W p v 0 0 (checklist self) _) as [cl1 [e|] s1];
    cbn [res raised after]; [reflexivity|].
  now destruct (push_each W (push_at W) p 0 cl1 s1).
Qed.
End Stepwise.

Ltac walk_step H :=
  first
    [ rewrite push_each_cons in H
    | rewrite push_each_nil in H
    | rewrite post_checklist_nil in H
    | erewrite post_checklist_cons_named in H by reflexivity
    | erewrite push_at_named in H by reflexivity
    | rewrite push_at_unnamed in H by reflexivity
    | match type of H with
      | context [tasks_user_post ?W ?a ?b ?c ?d ?e] =>
          let E := fresh "Etask" in
          destruct (tasks_user_post W a b c d e) as [[?resp|?exc] ?srv] eqn:E
      | context [tasks_checklist_post ?W ?a ?b ?c] =>
          let E := fresh "Eitem" in
          destruct (tasks_checklist_post W a b c) as [[?resp|?exc] ?srv] eqn:E
      | context [getitem ?r ?k] =>
          let E := fresh "Eid" in
          destruct (getitem r k) as [?v|?exc] eqn:E
      | context [checklist_entry_id ?r ?k] =>
          let E := fresh "Ecid" in
          destruct (checklist_entry_id r k) as [?v|?exc] eqn:E
      end ];
  cbv beta iota delta [bind name checklist priority id checklist_id
                       set_checklist set_id set_checklist_id] in H.

(** The walk of the example when nothing goes wrong, against any
    service: the twelve steps with what was sent and what was assigned,
    and the document written back when the identifiers are truthy. *)
Lemma example_push_normal (W : Outside) (s : state W) :
  raised (push W example_tree s) = None ->
  exists (buy clean vacuum dishes item1 item2
          made1 made2 made3 made4 answer1 answer2 : value),
    log (after (push W example_tree s))
    = log s
      ++ [CreateTask [0] ("Buy milk" ++ progress_marker) (note W)
            (py_str W default_priority) (Ok made1);
          AssignId [0] buy;
          CreateTask [1] ("Clean house" ++ progress_marker) (note W)
            (py_str W (VInt 2)) (Ok made2);
          AssignId [1] clean;
          CreateChecklistItem [1] 0 clean "Vacuum" (Ok answer1);
          AssignChecklistId [1] 0 item1;
          CreateChecklistItem [1] 1 clean "Dishes" (Ok answer2);
          AssignChecklistId [1] 1 item2;
          CreateTask [1; 0] ("Vacuum" ++ progress_marker) (note W)
            (py_str W default_priority) (Ok made3);
          AssignId [1; 0] vacuum;
          CreateTask [1; 1] ("Dishes" ++ progress_marker) (note W)
            (py_str W default_priority) (Ok made4);
          AssignId [1; 1] dishes] /\
    (truthy_identifiers W ->
     truthy buy = true /\ truthy clean = true /\
     truthy vacuum = true /\ truthy dishes = true /\
     truthy item1 = true /\ truthy item2 = true /\
     Task_iter (res (push W example_tree s))
     = [VDict [("Buy milk",
                VList [VDict [("id", buy)];
                       VDict [("priority", default_priority)]])];
        VDict [("Clean house",
                VList [VDict [("id", clean)];
                       VDict [("priority", VInt 2)];
                       VDict [("Vacuum",
                               VList [VDict [("id", vacuum)];
                                      VDict [("checklist_id", item1)];
                                      VDict [("priority", default_priority)]])];
                       VDict [("Dishes",
                               VList [VDict [("id", dishes)];
                                      VDict [("checklist_id", item2)];
                                      VDict [("priority", default_priority)]])]])]]).
Proof.
  intros Hok.
  remember (push W example_tree s) as o eqn:Ho.
  unfold push, example_tree in Ho.
  repeat first [ (walk_step Ho; [|subst o; discriminate Hok]) | walk_step Ho ].
  all: try (subst o; discriminate Hok).
  subst o. cbn [res raised after log remote].
  exists v, v0, v3, v4, v1, v2, resp, resp0, resp3, resp4, resp1, resp2.
  split; [rewrite <- !app_assoc; cbn [app]; reflexivity|].
  intros [Hid Hcid].
  pose proof (Hid _ _ _ _ _ _ _ _ Etask Eid) as Hbuy.
  pose proof (Hid _ _ _ _ _ _ _ _ Etask0 Eid0) as Hclean.
  pose proof (Hid _ _ _ _ _ _ _ _ Etask1 Eid1) as Hvacuum.
  pose proof (Hid _ _ _ _ _ _ _ _ Etask2 Eid2) as Hdishes.
  pose proof (Hcid _ _ _ _ _ _ _ Eitem Ecid) as Hitem1.
  pose proof (Hcid _ _ _ _ _ _ _ Eitem0 Ecid0) as Hitem2.
  repeat (split; [assumption|]).
  cbn. rewrite Hbuy, Hclean, Hvacuum, Hdishes, Hitem1, Hitem2. reflexivity.
Qed.

Lemma filter_prefix_length {A : Type} (f : A -> bool) l1 l2 :
  List.length (filter f l1) <= List.length (filter f (l1 ++ l2)).
Proof. rewrite filter_app, length_app. lia. Qed.

(** C6, as amended.  The document of the example parses to a root with the
    two tasks.  Whatever the service does, the calls and assignments of a
    push of that tree are a beginning of twelve steps, so that it makes at
    most four task-creation calls.  A push that ends normally has taken
    all twelve: exactly four task-creation calls, one for each named task
    (Buy milk, Clean house, and also Vacuum and Dishes, created as tasks of
    their own), and two item calls, for Vacuum and Dishes, with the
    identifier just assigned to Clean house.  When moreover the
    identifiers of the service are truthy, the document written back
    holds an [id] for each of the four tasks and a [checklist_id] for
    Vacuum and Dishes. *)
Theorem example_push_end_to_end :
  forall (W : Outside) (s : state W),
    Task_init None example_document = Ok example_tree /\
    exists new rest,
      log (after (push W example_tree s)) = log s ++ new /\
      map step_of new ++ rest
      = [DoCreateTask [0]; DoAssignId [0];
         DoCreateTask [1]; DoAssignId [1];
         DoCreateChecklistItem [1] 0; DoAssignChecklistId [1] 0;
         DoCreateChecklistItem [1] 1; DoAssignChecklistId [1] 1;
         DoCreateTask [1; 0]; DoAssignId [1; 0];
         DoCreateTask [1; 1]; DoAssignId [1; 1]] /\
      List.length (filter is_create_task (map step_of new)) <= 4 /\
      (raised (push W example_tree s) = None ->
       rest = [] /\
       List.length (filter is_create_task (map step_of new)) = 4 /\
       exists (buy clean vacuum dishes item1 item2
               made1 made2 made3 made4 answer1 answer2 : value),
         new
         = [CreateTask [0] ("Buy milk" ++ progress_marker) (note W)
              (py_str W default_priority) (Ok made1);
            AssignId [0] buy;
            CreateTask [1] ("Clean house" ++ progress_marker) (note W)
              (py_str W (VInt 2)) (Ok made2);
            AssignId [1] clean;
            CreateChecklistItem [1] 0 clean "Vacuum" (Ok answer1);
            AssignChecklistId [1] 0 item1;
            CreateChecklistItem [1] 1 clean "Dishes" (Ok answer2);
            AssignChecklistId [1] 1 item2;
            CreateTask [1; 0] ("Vacuum" ++ progress_marker) (note W)
              (py_str W default_priority) (Ok made3);
            AssignId [1; 0] vacuum;
            CreateTask [1; 1] ("Dishes" ++ progress_marker) (note W)
              (py_str W default_priority) (Ok made4);
            AssignId [1; 1] dishes] /\
         (truthy_identifiers W ->
          truthy buy = true /\ truthy clean = true /\
          truthy vacuum = true /\ truthy dishes = true /\
          truthy item1 = true /\ truthy item2 = true /\
          Task_iter (res (push W example_tree s))
          = [VDict [("Buy milk",
                     VList [VDict [("id", buy)];
                            VDict [("priority", default_priority)]])];
             VDict [("Clean house",
                     VList [VDict [("id", clean)];
                            VDict [("priority", VInt 2)];
                            VDict [("Vacuum",
                                    VList [VDict [("id", vacuum)];
                                           VDict [("checklist_id", item1)];
                                           VDict [("priority",
                                                   default_priority)]])];
                            VDict [("Dishes",
                                    VList [VDict [("id", dishes)];
                                           VDict [("checklist_id", item2)];
                                           VDict [("priority",
                                                   default_priority)]])]])]])).
Proof.
  intros W s. split; [reflexivity|].
  destruct (push_at_plan W [] example_tree s)
    as [_ (new & rest & Hlog & Hplan & Hrest)].
  change (push_at W [] example_tree s) with (push W example_tree s)
    in Hlog, Hrest.
  exists new, rest. split; [exact Hlog|]. split; [exact Hplan|]. split.
  { pose proof (filter_prefix_length is_create_task (map step_of new) rest)
      as Hle.
    rewrite Hplan in Hle. exact Hle. }
  intros Hok. split; [exact (Hrest Hok)|].
  destruct (example_push_normal W s Hok)
    as (buy & clean & vacuum & dishes & item1 & item2 & made1 & made2
        & made3 & made4 & answer1 & answer2 & Hlog' & Hdoc).
  rewrite Hlog in Hlog'. apply app_inv_head in Hlog'. subst new.
  split; [reflexivity|].
  exists buy, clean, vacuum, dishes, item1, item2, made1, made2, made3,
    made4, answer1, answer2.
  split; [reflexivity | exact Hdoc].
Qed.

Lemma demo_truthy_identifiers : truthy_identifiers demo.
Proof.
  split.
  - intros ty text notes prio a resp a' v Hcall Hget.
    cbn in Hcall. injection Hcall as <- _. cbn in Hget.
    injection Hget as <-. reflexivity.
  - intros task_id text a resp a' k v Hcall Hget.
    cbn in Hcall. injection Hcall as <- _.
    unfold checklist_entry_id in Hget. cbn [getitem find fst snd String.eqb
      Ascii.eqb Bool.eqb bind getindex] in Hget.
    rewrite nth_error_map in Hget.
    destruct (nth_error (seq 0 (a + 2)) k); cbn in Hget; [|discriminate].
    injection Hget as <-. reflexivity.
Qed.

(** On the stand-in service the push of the example ends normally, and
    the document written back is the one of the statement. *)
Lemma example_push_end_to_end_witness :
  raised (push demo example_tree demo_start) = None /\
  truthy_identifiers demo /\
  List.length
    (filter is_create_task
       (map step_of (log (after (push demo example_tree demo_start))))) = 4 /\
  exists buy clean vacuum dishes item1 item2,
    truthy buy = true /\ truthy clean = true /\
    truthy vacuum = true /\ truthy dishes = true /\
    truthy item1 = true /\ truthy item2 = true /\
    Task_iter (res (push demo example_tree demo_start))
    = [VDict [("Buy milk",
               VList [VDict [("id", buy)];
                      VDict [("priority", default_priority)]])];
       VDict [("Clean house",
               VList [VDict [("id", clean)];
                      VDict [("priority", VInt 2)];
                      VDict [("Vacuum",
                              VList [VDict [("id", vacuum)];
                                     VDict [("checklist_id", item1)];
                                     VDict [("priority", default_priority)]])];
                      VDict [("Dishes",
                              VList [VDict [("id", dishes)];
                                     VDict [("checklist_id", item2)];
                                     VDict [("priority", default_priority)]])]])]].
Proof.
  split; [reflexivity|]. split; [exact demo_truthy_identifiers|].
  destruct (example_push_end_to_end demo demo_start)
    as (_ & new & rest & Hlog & _ & _ & Hnormal).
  destruct (Hnormal eq_refl)
    as (_ & Hfour & buy & clean & vacuum & dishes & item1 & item2 & made1
        & made2 & made3 & made4 & answer1 & answer2 & _ & Hdoc).
  split.
  { cbn [log demo_start app] in Hlog. rewrite Hlog. exact Hfour. }
  exists buy, clean, vacuum, dishes, item1, item2.
  exact (Hdoc demo_truthy_identifiers).
Defined.

(** C6, as stated, fails: the push of the example makes four task-creation
    calls, not three, Vacuum and Dishes being created as tasks of their
    own after they were added as items of Clean house.  And the number is
    not the same on every service: where the answer to an item call lists
    the items added so far and nothing else, the read of the entry of
    index 1 fails on the first item, and the push of the example stops
    after two task-creation calls. *)
Lemma example_push_creates_four_tasks :
  Task_init None example_document = Ok example_tree /\
  raised (push demo example_tree demo_start) = None /\
  filter is_create_task
    (map step_of (log (after (push demo example_tree demo_start))))
  = [DoCreateTask [0]; DoCreateTask [1]; DoCreateTask [1; 0];
     DoCreateTask [1; 1]] /\
  List.length
    (filter is_create_task
       (map step_of (log (after (push demo example_tree demo_start))))) <> 3 /\
  raised (push (ledger []) example_tree (ledger_start []))
  = Some (IndexError 1) /\
  map step_of (log (after (push (ledger []) example_tree (ledger_start []))))
  = [DoCreateTask [0]; DoAssignId [0]; DoCreateTask [1]; DoAssignId [1];
     DoCreateChecklistItem [1] 0].
Proof.
  split; [reflexivity|]. split; [reflexivity|]. split; [reflexivity|].
  split; [cbn; discriminate|]. split; reflexivity.
Qed.

(** * More of the program: theorems *)

(** ** What the constructor builds *)

Lemma init_elements_name init nm es :
  forall self t,
    init_elements init nm self es = Ok t -> name t = name self.
Proof.
  induction es as [|e es IH]; intros self t H.
  - now injection H as <-.
  - destruct e as [| b | z | f | s | l | items]; cbn [init_elements] in H;
      try (now apply IH).
    + now rewrite (IH _ _ H).
    + destruct items as [|[k v] [|kv2 items]]; try discriminate.
      destruct (String.eqb k "priority").
      * destruct (priority_ok v); [|discriminate]. now rewrite (IH _ _ H).
      * destruct (is_list_int_float v); [|discriminate].
        destruct (init (Some k) v) as [child|x]; [|discriminate].
        cbn [bind] in H. rewrite (IH _ _ H). cbn [append_child set_checklist name].
        apply record_identifier_fields.
Qed.

Lemma Task_init_name data nm t : Task_init nm data = Ok t -> name t = nm.
Proof.
  destruct data; cbn [Task_init]; intros H;
    try (now injection H as <-).
  now rewrite (init_elements_name _ _ _ _ _ H).
Qed.

Lemma init_elements_children_names init nm :
  (forall k v c, init (Some k) v = Ok c -> name c = Some k) ->
  forall es self t,
    init_elements init nm self es = Ok t ->
    map name (checklist t) = map name (checklist self) ++ entry_names es.
Proof.
  intros Hinit. induction es as [|e es IH]; intros self t H.
  - injection H as <-. now rewrite app_nil_r.
  - destruct e as [| b | z | f | s | l | items]; cbn [init_elements] in H;
      try (now apply IH).
    + rewrite (IH _ _ H). cbn [append_child set_checklist checklist].
      rewrite map_app, <- app_assoc. reflexivity.
    + destruct items as [|[k v] [|kv2 items]]; try discriminate.
      unfold entry_names. cbn [flat_map entry_name].
      destruct (String.eqb k "priority").
      * destruct (priority_ok v); [|discriminate]. now rewrite (IH _ _ H).
      * destruct (is_list_int_float v); [|discriminate].
        destruct (init (Some k) v) as [child|x] eqn:Hc; [|discriminate].
        cbn [bind] in H. rewrite (IH _ _ H).
        cbn [append_child set_checklist checklist].
        destruct (record_identifier_fields k v self) as (_ & -> & _).
        rewrite map_app, <- app_assoc. cbn [map app].
        now rewrite (Hinit _ _ _ Hc).
Qed.

(** X1.  A task built from a sequence has the name it was given, and its
    children are those of the text elements and of the single-key
    mappings other than priority entries, one for each, under the names
    written in the document and in the order of the document. *)
Theorem constructor_children_in_order :
  forall (nm : option string) (es : list value) (t : Task),
    Task_init nm (VList es) = Ok t ->
    name t = nm /\ map name (checklist t) = entry_names es.
Proof.
  intros nm es t H. split; [exact (Task_init_name _ _ _ H)|].
  rewrite init_list in H.
  apply (init_elements_children_names Task_init nm) in H; [exact H|].
  intros k v c. apply Task_init_name.
Qed.

Lemma constructor_children_in_order_witness :
  name example_tree = None /\
  map name (checklist example_tree)
  = entry_names
      [VStr "Buy milk";
       VDict [("Clean house",
               VList [VStr "Vacuum"; VStr "Dishes";
                      VDict [("priority", VInt 2)]])]].
Proof.
  apply (constructor_children_in_order None
           [VStr "Buy milk";
            VDict [("Clean house",
                    VList [VStr "Vacuum"; VStr "Dishes";
                           VDict [("priority", VInt 2)]])]]
           example_tree).
  reflexivity.
Defined.

Lemma unidentified_append child self :
  unidentified self = true -> unidentified child = true ->
  unidentified (append_child child self) = true.
Proof.
  destruct self as [nm cl pr i ci]. cbn. intros H Hc.
  apply andb_true_iff in H. destruct H as [H Hcl]. rewrite H. cbn.
  rewrite forallb_app, Hcl. cbn. now rewrite Hc.
Qed.

Lemma init_elements_unidentified init nm es :
  (forall k v c,
      In (VDict [(k, v)]) es -> no_identifier_keys v = true ->
      init (Some k) v = Ok c -> unidentified c = true) ->
  forall self t,
    forallb no_identifier_keys es = true ->
    unidentified self = true ->
    init_elements init nm self es = Ok t -> unidentified t = true.
Proof.
  induction es as [|e es IH]; intros Hinit self t Hes Hself H.
  - now injection H as <-.
  - cbn [forallb] in Hes. apply andb_true_iff in Hes. destruct Hes as [He Hes].
    assert (Hinit' : forall k v c,
               In (VDict [(k, v)]) es -> no_identifier_keys v = true ->
               init (Some k) v = Ok c -> unidentified c = true).
    { intros k v c Hin. apply Hinit. now right. }
    destruct e as [| b | z | f | s | l | items]; cbn [init_elements] in H;
      try (now apply (IH Hinit' _ _ Hes Hself H)).
    + apply (IH Hinit' _ _ Hes) in H; [exact H|].
      now apply unidentified_append.
    + destruct items as [|[k v] [|kv2 items]]; try discriminate.
      cbn [no_identifier_keys forallb] in He. rewrite andb_true_r in He.
      apply andb_true_iff in He. destruct He as [Hk Hv].
      apply negb_true_iff in Hk.
      destruct (String.eqb k "priority").
      * destruct (priority_ok v); [|discriminate].
        apply (IH Hinit' _ _ Hes) in H; [exact H|].
        destruct self; exact Hself.
      * destruct (is_list_int_float v); [|discriminate].
        destruct (init (Some k) v) as [child|x] eqn:Hc; [|discriminate].
        cbn [bind] in H. rewrite (record_identifier_other _ _ _ Hk) in H.
        apply (IH Hinit' _ _ Hes) in H; [exact H|].
        apply unidentified_append; [exact Hself|].
        apply (Hinit k v child); [now left | exact Hv | exact Hc].
Qed.

Lemma unidentified_all_unpushed t : unidentified t = true -> all_unpushed t = true.
Proof.
  induction t as [nm cl pr i ci IH] using Task_nested_ind.
  cbn [unidentified all_unpushed id checklist_id checklist]. intros H.
  apply andb_true_iff in H. destruct H as [H Hcl].
  apply andb_true_iff in H. destruct H as [Hi _]. rewrite Hi.
  replace (if is_named (mkTask nm cl pr i ci) then true else true) with true
    by now destruct (is_named _).
  cbn [andb]. rewrite forallb_forall in *. rewrite Forall_forall in IH.
  intros c Hc. apply IH; [exact Hc|]. now apply Hcl.
Qed.

(** X2.  A document in which no mapping has the key [id] or
    [checklist_id], at any depth, is built into a tree in which no task has
    an identifier: only such entries set the identifiers at construction.
    In particular no named task of that tree has an [id], which is what
    [is_new] is meant to find. *)
Theorem constructor_sets_no_identifier :
  forall (data : value) (nm : option string) (t : Task),
    no_identifier_keys data = true ->
    Task_init nm data = Ok t ->
    unidentified t = true /\ all_unpushed t = true.
Proof.
  intros data nm t Hdata H.
  enough (Hun : unidentified t = true)
    by (split; [exact Hun | now apply unidentified_all_unpushed]).
  revert nm t Hdata H.
  enough (H :
    (forall nm t, no_identifier_keys data = true ->
                  Task_init nm data = Ok t -> unidentified t = true) /\
    match data with
    | VDict items =>
        Forall (fun kv => forall nm t,
                    no_identifier_keys (snd kv) = true ->
                    Task_init nm (snd kv) = Ok t -> unidentified t = true) items
    | _ => True
    end) by apply H.
  induction data as [| b | z | f | s | l IH | l IH] using value_nested_ind;
    try (split; [intros nm t _ H; now injection H as <- | exact I]).
  - split; [|exact I]. intros nm t Hl H. rewrite init_list in H.
    apply (init_elements_unidentified Task_init nm l) in H;
      [exact H | | exact Hl | reflexivity].
    intros k v c Hin Hv Hc. rewrite Forall_forall in IH.
    destruct (IH _ Hin) as [_ Hitems]. inversion Hitems as [|? ? Hkv _]; subst.
    exact (Hkv (Some k) c Hv Hc).
  - split; [intros nm t _ H; now injection H as <-|].
    eapply Forall_impl; [|exact IH]. intros kv [H _]. exact H.
Qed.

Lemma constructor_sets_no_identifier_witness :
  unidentified example_tree = true /\ all_unpushed example_tree = true.
Proof.
  apply (constructor_sets_no_identifier example_document None example_tree);
    reflexivity.
Defined.

Lemma valid_priorities_append child self :
  valid_priorities_below self = true ->
  priority_ok (priority child) = true ->
  valid_priorities_below child = true ->
  valid_priorities_below (append_child child self) = true.
Proof.
  destruct self as [nm cl pr i ci].
  cbn [append_child set_checklist valid_priorities_below checklist].
  intros H Hp Hc. rewrite forallb_app, H. cbn [forallb andb].
  apply andb_true_iff. split; [|reflexivity].
  apply andb_true_iff. now split.
Qed.

Lemma init_elements_valid_priorities init nm es :
  (forall k l c,
      In (VDict [(k, VList l)]) es -> no_scalar_priorities (VList l) = true ->
      init (Some k) (VList l) = Ok c ->
      priority_ok (priority c) = true /\ valid_priorities_below c = true) ->
  forall self t,
    forallb no_scalar_priorities es = true ->
    priority_ok (priority self) = true ->
    valid_priorities_below self = true ->
    init_elements init nm self es = Ok t ->
    priority_ok (priority t) = true /\ valid_priorities_below t = true.
Proof.
  induction es as [|e es IH]; intros Hinit self t Hes Hp Hself H.
  - injection H as <-. now split.
  - cbn [forallb] in Hes. apply andb_true_iff in Hes. destruct Hes as [He Hes].
    assert (Hinit' : forall k l c,
               In (VDict [(k, VList l)]) es ->
               no_scalar_priorities (VList l) = true ->
               init (Some k) (VList l) = Ok c ->
               priority_ok (priority c) = true /\
               valid_priorities_below c = true).
    { intros k l c Hin. apply Hinit. now right. }
    destruct e as [| b | z | f | s | l | items]; cbn [init_elements] in H;
      try (now apply (IH Hinit' _ _ Hes Hp Hself H)).
    + apply (IH Hinit' _ _ Hes) in H; [exact H | destruct self; exact Hp |].
      now apply valid_priorities_append.
    + destruct items as [|[k v] [|kv2 items]]; try discriminate.
      cbn [no_scalar_priorities forallb] in He. rewrite andb_true_r in He.
      destruct (String.eqb k "priority") eqn:Hk.
      * destruct (priority_ok v) eqn:Hv; [|discriminate].
        apply (IH Hinit' _ _ Hes) in H; [exact H | exact Hv |].
        destruct self; exact Hself.
      * cbn [orb] in He. destruct v as [| | | | | l |]; try discriminate.
        cbn [is_list_int_float] in H.
        destruct (init (Some k) (VList l)) as [child|x] eqn:Hc; [|discriminate].
        cbn [bind] in H.
        destruct (Hinit k l child (or_introl eq_refl) He Hc) as [Hcp Hcv].
        destruct (record_identifier_fields k (VList l) self) as (_ & Hrc & Hrp).
        apply (IH Hinit' _ _ Hes) in H; [exact H | |].
        -- cbn [append_child set_checklist priority]. now rewrite Hrp.
        -- unfold append_child, set_checklist. cbn [valid_priorities_below checklist].
           rewrite Hrc, forallb_app. cbn [forallb].
           destruct self as [nm0 cl pr i ci].
           cbn [valid_priorities_below checklist] in Hself. cbn [checklist].
           now rewrite Hself, Hcp, Hcv.
Qed.

(** X3.  When no mapping of the document gives a bare number to a name,
    every task of the tree built from a sequence has a priority among 0.5,
    1, 1.5 and 2: the default 1.0 or the value of a priority entry that was
    checked. *)
Theorem constructor_priorities_valid :
  forall (es : list value) (nm : option string) (t : Task),
    no_scalar_priorities (VList es) = true ->
    Task_init nm (VList es) = Ok t ->
    priority_ok (priority t) = true /\ valid_priorities_below t = true.
Proof.
  intros es nm t. revert nm t.
  enough (H :
    (forall l nm t, VList es = VList l ->
        no_scalar_priorities (VList l) = true ->
        Task_init nm (VList l) = Ok t ->
        priority_ok (priority t) = true /\ valid_priorities_below t = true) /\
    True) by (intros nm t; now apply (proj1 H es nm t)).
  generalize (VList es). intros data.
  enough (H :
    (forall l nm t, data = VList l ->
        no_scalar_priorities (VList l) = true ->
        Task_init nm (VList l) = Ok t ->
        priority_ok (priority t) = true /\ valid_priorities_below t = true) /\
    match data with
    | VDict items =>
        Forall (fun kv => forall l nm t, snd kv = VList l ->
                    no_scalar_priorities (VList l) = true ->
                    Task_init nm (VList l) = Ok t ->
                    priority_ok (priority t) = true /\
                    valid_priorities_below t = true) items
    | _ => True
    end) by (split; [apply H | exact I]).
  induction data as [| b | z | f | s | l IH | l IH] using value_nested_ind;
    try (split; [intros l' nm t Heq; discriminate | exact I]).
  - split; [|exact I]. intros l' nm t Heq Hl H. injection Heq as <-.
    rewrite init_list in H.
    apply (init_elements_valid_priorities Task_init nm l) in H;
      [exact H | | exact Hl | reflexivity | reflexivity].
    intros k l0 c Hin Hv Hc. rewrite Forall_forall in IH.
    destruct (IH _ Hin) as [_ Hitems]. inversion Hitems as [|? ? Hkv _]; subst.
    exact (Hkv l0 (Some k) c eq_refl Hv Hc).
  - split; [intros l' nm t Heq; discriminate|].
    eapply Forall_impl; [|exact IH]. intros kv [H _]. exact H.
Qed.

Lemma constructor_priorities_valid_witness :
  priority_ok (priority example_tree) = true /\
  valid_priorities_below example_tree = true.
Proof.
  apply (constructor_priorities_valid
           [VStr "Buy milk";
            VDict [("Clean house",
                    VList [VStr "Vacuum"; VStr "Dishes";
                           VDict [("priority", VInt 2)]])]]
           None example_tree); reflexivity.
Defined.

(** ** What serialization writes *)



Lemma Task_iter_unfold t :
  Task_iter t
  = (match named t with
     | Some _ => own_entries t
     | None => []
     end)
    ++ flat_map
         (fun task =>
            match named task with
            | Some n => [VDict [(n, VList (Task_iter task))]]
            | None => []
            end)
         (checklist t).
Proof. destruct t; reflexivity. Qed.





Lemma text_identifier_truthy v : text_identifier v = true -> truthy v = true.
Proof. destruct v; try discriminate. intros H; exact H. Qed.

Lemma text_identifier_refused v :
  text_identifier v = true -> is_list_int_float v = false.
Proof. destruct v; try discriminate. reflexivity. Qed.

Lemma id_entry_in_iter t :
  is_named t = true -> truthy (id t) = true ->
  In (VDict [("id", id t)]) (Task_iter t).
Proof.
  intros Hn Hid. rewrite Task_iter_unfold. apply in_or_app. left.
  unfold is_named in Hn. destruct (named t); [|discriminate].
  unfold own_entries. cbn [flat_map prop_value String.eqb Ascii.eqb Bool.eqb].
  rewrite Hid. now left.
Qed.

Lemma checklist_id_entry_in_iter t :
  is_named t = true -> truthy (checklist_id t) = true ->
  In (VDict [("checklist_id", checklist_id t)]) (Task_iter t).
Proof.
  intros Hn Hid. rewrite Task_iter_unfold. apply in_or_app. left.
  unfold is_named in Hn. destruct (named t); [|discriminate].
  unfold own_entries. cbn [flat_map prop_value String.eqb Ascii.eqb Bool.eqb].
  rewrite Hid. apply in_or_app. right.
  destruct (truthy (id t)); cbn; tauto.
Qed.

Lemma child_entry_in_iter t c n :
  In c (checklist t) -> named c = Some n ->
  In (VDict [(n, VList (Task_iter c))]) (Task_iter t).
Proof.
  intros Hc Hn. rewrite (Task_iter_unfold t). apply in_or_app. right.
  apply in_flat_map. exists c. split; [exact Hc|]. rewrite Hn. now left.
Qed.

Lemma nested_entry_rejected es n sub :
  In (VDict [(n, VList sub)]) es ->
  rejected not_one_key (VList sub) ->
  rejected not_one_key (VList es).
Proof.
  intros Hin Hsub. destruct (String.eqb n "priority") eqn:Hn.
  - apply String.eqb_eq in Hn. subst n.
    now apply (rejected_priority _ es (VList sub)).
  - apply String.eqb_neq in Hn.
    now apply (rejected_nested _ es n (VList sub)).
Qed.

Lemma writes_text_identifier_rejected c :
  writes_text_identifier c = true ->
  rejected not_one_key (VList (Task_iter c)).
Proof.
  induction c as [nm cl pr i ci IH] using Task_nested_ind.
  cbn [writes_text_identifier id checklist_id checklist]. intros H.
  apply andb_true_iff in H. destruct H as [Hn H].
  apply orb_true_iff in H. destruct H as [H|H];
    [apply orb_true_iff in H; destruct H as [H|H]|].
  - apply (rejected_type _ _ "id" i).
    + apply (id_entry_in_iter (mkTask nm cl pr i ci) Hn).
      now apply text_identifier_truthy.
    + discriminate.
    + now apply text_identifier_refused.
  - apply (rejected_type _ _ "checklist_id" ci).
    + apply (checklist_id_entry_in_iter (mkTask nm cl pr i ci) Hn).
      now apply text_identifier_truthy.
    + discriminate.
    + now apply text_identifier_refused.
  - apply existsb_exists in H. destruct H as (d & Hd & Hw).
    rewrite Forall_forall in IH.
    assert (Hdn : is_named d = true).
    { destruct d. cbn [writes_text_identifier] in Hw.
      now apply andb_true_iff in Hw. }
    unfold is_named in Hdn. destruct (named d) as [n|] eqn:Hnd; [|discriminate].
    apply (nested_entry_rejected _ n (Task_iter d)).
    + now apply (child_entry_in_iter (mkTask nm cl pr i ci) d n).
    + now apply IH.
Qed.

(** X5.  A document written for a tree cannot be read back as soon as a
    named task in it, reached through named tasks, holds a text [id] or
    [checklist_id]: the constructor refuses what serialization wrote,
    under whatever name it is asked to build. *)
Theorem text_identifiers_cannot_be_read_back :
  forall (t : Task) (nm : option string),
    writes_text_identifier t = true
    \/ existsb writes_text_identifier (checklist t) = true ->
    raises (Task_init nm (VList (Task_iter t))).
Proof.
  intros t nm [H|H]; apply rejected_raises.
  - now apply writes_text_identifier_rejected.
  - apply existsb_exists in H. destruct H as (d & Hd & Hw).
    assert (Hdn : is_named d = true).
    { destruct d. cbn [writes_text_identifier] in Hw.
      now apply andb_true_iff in Hw. }
    unfold is_named in Hdn. destruct (named d) as [n|] eqn:Hnd; [|discriminate].
    apply (nested_entry_rejected _ n (Task_iter d)).
    + now apply (child_entry_in_iter t d n).
    + now apply writes_text_identifier_rejected.
Qed.

Lemma text_identifiers_cannot_be_read_back_witness :
  raises
    (Task_init None
       (VList (Task_iter (res (push demo example_tree demo_start))))).
Proof.
  apply (text_identifiers_cannot_be_read_back
           (res (push demo example_tree demo_start)) None).
  right. reflexivity.
Defined.

(** ** How many calls a push makes *)







(** ** A tree without a named task *)

Lemma list_sum_zero l : list_sum l = 0 -> Forall (fun n => n = 0) l.
Proof.
  induction l as [|a l IH]; cbn [list_sum fold_right]; intros H;
    constructor; [lia | apply IH; unfold list_sum; lia].
Qed.

Lemma push_each_nothing (W : Outside) push cl :
  Forall (fun c => forall q s,
              push q c s = {| res := c; raised := None; after := s |}) cl ->
  forall p i (s : state W),
    push_each W push p i cl s = {| res := cl; raised := None; after := s |}.
Proof.
  induction 1 as [|c cl Hc _ IH]; intros p i s; [reflexivity|].
  cbn [push_each]. rewrite Hc. cbn [res raised after]. now rewrite IH.
Qed.

Lemma push_at_nothing (W : Outside) t :
  count_named t = 0 ->
  forall p (s : state W),
    push_at W p t s = {| res := t; raised := None; after := s |}.
Proof.
  induction t as [nm cl pr i ci IH] using Task_nested_ind.
  cbn [count_named checklist]. intros H p s.
  destruct (is_named (mkTask nm cl pr i ci)) eqn:Hn; [lia|].
  cbn [Nat.add] in H. apply list_sum_zero in H.
  rewrite push_at_unfold. unfold push_body.
  unfold is_named in Hn. destruct (named (mkTask nm cl pr i ci)); [discriminate|].
  cbn [checklist]. rewrite (push_each_nothing W (push_at W) cl); [reflexivity|].
  rewrite Forall_forall in *. intros c Hc q s'. apply IH; [exact Hc|].
  apply H. now apply in_map.
Qed.

(** X7.  A push of a tree in which no task has a name, such as the tree
    of a document that holds only empty names, does nothing: it calls
    nothing, ends normally and leaves the tree and the service as they
    were. *)
Theorem push_without_named_task_is_idle :
  forall (W : Outside) (t : Task) (s : state W),
    count_named t = 0 ->
    push W t s = {| res := t; raised := None; after := s |}.
Proof. intros W t s H. now apply push_at_nothing. Qed.

Lemma push_without_named_task_is_idle_witness :
  push demo (mkTask None [mkTask (Some EmptyString)
                            [mkTask None [] default_priority VNone VNone]
                            (VInt 2) VNone VNone]
               default_priority VNone VNone) demo_start
  = {| res := mkTask None [mkTask (Some EmptyString)
                             [mkTask None [] default_priority VNone VNone]
                             (VInt 2) VNone VNone]
                default_priority VNone VNone;
       raised := None; after := demo_start |}.
Proof.
  apply (push_without_named_task_is_idle demo). reflexivity.
Defined.

(** ** A push again *)

(** X8.  A push leaves in the tree nothing that a later push looks at:
    pushing the tree a push has left, against any service, follows the plan
    of the first push, so that when it ends normally it has repeated every
    call, for the same tasks in the same order. *)
Theorem second_push_repeats_the_plan :
  forall (W W' : Outside) (t : Task) (s : state W) (s' : state W'),
    exists new rest,
      log (after (push W' (res (push W t s)) s')) = log s' ++ new /\
      map step_of new ++ rest = preorder [] t /\
      (raised (push W' (res (push W t s)) s') = None -> rest = []).
Proof.
  intros W W' t s s'. unfold push.
  destruct (push_at_plan W [] t s) as [Hsk _].
  destruct (push_at_plan W' [] (res (push_at W [] t s)) s') as [_ Hf].
  rewrite (preorder_skeleton _ t [] Hsk) in Hf. exact Hf.
Qed.

(** ** The identifiers a push leaves *)

Section Identified.
Context (W : Outside) (P : value -> bool).
Hypothesis Hpass : identifiers_pass W P.
Implicit Types s : state W.

Lemma post_checklist_identified p v cl :
  forall k i s,
    raised (post_checklist W p v k i cl s) = None ->
    Forall (fun c => is_named c = true -> P (checklist_id c) = true)
      (res (post_checklist W p v k i cl s)).
Proof.
  induction cl as [|c cl IH]; intros k i s Hok; [constructor|].
  cbn [post_checklist] in *. unfold is_named at 1.
  destruct (named c) as [text|] eqn:Hn.
  - unfold post_checklist_item in *.
    destruct (tasks_checklist_post W v text (remote s)) as [r a] eqn:Hcall.
    destruct r as [resp|e]; cbn [bind] in *; [|discriminate].
    destruct (checklist_entry_id resp (S k)) as [cid|e] eqn:Hcid;
      [|discriminate].
    cbn [res raised after] in *. constructor; [|now apply IH].
    intros _. cbn [set_checklist_id checklist_id].
    exact (proj2 Hpass _ _ _ _ _ _ _ Hcall Hcid).
  - cbn [res raised after] in *. constructor; [|now apply IH].
    unfold is_named. rewrite Hn. discriminate.
Qed.

Lemma push_each_identified push b :
  identifies W P push ->
  forall cl p i s,
    raised (push_each W push p i cl s) = None ->
    Forall (fun c => b = true -> is_named c = true ->
                     P (checklist_id c) = true) cl ->
    forallb (identified P b) (res (push_each W push p i cl s)) = true.
Proof.
  intros Hpush. induction cl as [|c cl IH]; intros p i s Hok Hcl;
    [reflexivity|].
  cbn [push_each] in *. inversion Hcl as [|? ? Hc Hcl']; subst.
  destruct (raised (push (p ++ [i]) c s)) eqn:Hr; [discriminate|].
  cbn [res raised after forallb] in *.
  rewrite (Hpush _ _ _ b Hr Hc). now apply IH.
Qed.

Lemma identified_unfold b t :
  identified P b t
  = (if is_named t
     then P (id t) && (if b then P (checklist_id t) else true)
     else true)
    && forallb (identified P (is_named t)) (checklist t).
Proof. destruct t; reflexivity. Qed.

Lemma push_body_identifies push :
  identifies W P push -> identifies W P (push_body W push).
Proof.
  intros Hpush p self s b. unfold push_body.
  destruct (named self) as [nm|] eqn:Hn.
  - unfold post_task.
    destruct (tasks_user_post W "todo" (nm ++ progress_marker) (note W)
                (py_str W (priority self)) (remote s)) as [r a] eqn:Hcall.
    destruct r as [resp|e]; cbn [bind]; [|discriminate].
    destruct (getitem resp "id") as [v|e] eqn:Hid; [|discriminate].
    cbn [checklist set_checklist set_id id].
    match goal with
    | |- context [post_checklist W p v 0 0 (checklist self) ?s2] =>
        set (o1 := post_checklist W p v 0 0 (checklist self) s2);
        pose proof (post_checklist_identified p v (checklist self) 0 0 s2)
          as H1
    end.
    fold o1 in H1. destruct (raised o1) eqn:Hr1; [discriminate|].
    specialize (H1 eq_refl). cbn [res raised after]. intros Hok Hb.
    pose proof (push_each_identified push true Hpush (res o1) p 0 (after o1)
                  Hok) as H2.
    rewrite identified_unfold.
    change (is_named (set_checklist _ (set_checklist _ (set_id v self))))
      with (is_named self).
    cbn [set_checklist set_id id checklist_id checklist].
    assert (Hnamed : is_named self = true) by (unfold is_named; now rewrite Hn).
    rewrite Hnamed, (proj1 Hpass _ _ _ _ _ _ _ _ Hcall Hid).
    cbn [andb]. rewrite H2.
    + rewrite andb_true_r. destruct b; [|reflexivity].
      now apply Hb.
    + eapply Forall_impl; [|exact H1]. intros c Hc _. exact Hc.
  - cbn [res raised after]. intros Hok _.
    rewrite identified_unfold.
    change (is_named (set_checklist _ self)) with (is_named self).
    cbn [set_checklist checklist].
    assert (Hnamed : is_named self = false) by (unfold is_named; now rewrite Hn).
    rewrite Hnamed. cbn [andb].
    apply (push_each_identified push false Hpush _ _ _ _ Hok).
    apply Forall_forall. intros c _ Hfalse. discriminate.
Qed.

Lemma push_fuel_identifies fuel : identifies W P (push_fuel W fuel).
Proof.
  induction fuel as [|fuel IH].
  - intros q c s b Hok. discriminate.
  - cbn [push_fuel]. now apply push_body_identifies.
Qed.

Lemma push_at_identifies : identifies W P (push_at W).
Proof. intros q c s b. apply push_fuel_identifies. Qed.
End Identified.

Lemma demo_text_identifiers : identifiers_pass demo text_identifier.
Proof.
  split.
  - intros ty text notes prio a resp a' v Hcall Hget.
    cbn in Hcall. injection Hcall as <- _. cbn in Hget.
    injection Hget as <-. reflexivity.
  - intros task_id text a resp a' k v Hcall Hget.
    cbn in Hcall. injection Hcall as <- _.
    unfold checklist_entry_id in Hget. cbn [getitem find fst snd String.eqb
      Ascii.eqb Bool.eqb bind getindex] in Hget.
    rewrite nth_error_map in Hget.
    destruct (nth_error (seq 0 (a + 2)) k); cbn in Hget; [|discriminate].
    injection Hget as <-. reflexivity.
Qed.

(** X9.  When a push ends normally, every named task of the tree, at
    whatever depth, holds as its [id] an identifier the service returned,
    and every named child of a named task holds one as its [checklist_id]:
    whatever test all identifiers of the service pass, these fields pass
    it. *)
Theorem push_identifies_named_tasks :
  forall (W : Outside) (P : value -> bool) (t : Task) (s : state W),
    identifiers_pass W P ->
    raised (push W t s) = None ->
    identified P false (res (push W t s)) = true.
Proof.
  intros W P t s Hpass Hok.
  apply (push_at_identifies W P Hpass [] t s false Hok). discriminate.
Qed.

Lemma push_identifies_named_tasks_witness :
  identified text_identifier false (res (push demo example_tree demo_start))
  = true.
Proof.
  apply (push_identifies_named_tasks demo text_identifier example_tree
           demo_start).
  - exact demo_text_identifiers.
  - reflexivity.
Defined.

Lemma identified_writes b c :
  identified text_identifier b c = true -> is_named c = true ->
  writes_text_identifier c = true.
Proof.
  destruct c as [nm cl pr i ci].
  cbn [identified writes_text_identifier id checklist_id]. intros H Hn.
  rewrite Hn in *. apply andb_true_iff in H. destruct H as [H _].
  apply andb_true_iff in H. destruct H as [H _]. now rewrite H.
Qed.

Lemma skeleton_named_child l l' :
  map skeleton l' = map skeleton l ->
  existsb is_named l = true ->
  exists d, In d l' /\ is_named d = true.
Proof.
  revert l'. induction l as [|c l IH]; intros [|c' l'] Hmap H;
    try discriminate.
  injection Hmap as Hc Hl. cbn [existsb] in H.
  apply orb_true_iff in H. destruct H as [H|H].
  - exists c'. split; [now left|]. now rewrite (skeleton_is_named _ _ Hc).
  - destruct (IH l' Hl H) as (d & Hd & Hn). exists d. split; [now right|].
    exact Hn.
Qed.

(** X10.  Against a service whose identifiers are non-empty text, the
    document written after a push that ended normally is refused by the
    constructor, as soon as the root or one of its children has a name:
    what the program writes after a push, it cannot read. *)
Theorem pushed_document_cannot_be_read_back :
  forall (W : Outside) (t : Task) (s : state W) (nm : option string),
    identifiers_pass W text_identifier ->
    raised (push W t s) = None ->
    is_named t = true \/ existsb is_named (checklist t) = true ->
    raises (Task_init nm (VList (Task_iter (res (push W t s))))).
Proof.
  intros W t s nm Hpass Hok Hnamed. unfold push in *.
  pose proof (push_at_identifies W text_identifier Hpass [] t s false Hok)
    as Hid.
  assert (Hid' : identified text_identifier false (res (push_at W [] t s))
                 = true) by (apply Hid; discriminate).
  clear Hid. destruct (push_at_plan W [] t s) as [Hsk _].
  apply rejected_raises. destruct Hnamed as [Hn|Hn].
  - apply writes_text_identifier_rejected.
    apply (identified_writes false); [exact Hid'|].
    now rewrite (skeleton_is_named _ _ Hsk).
  - rewrite (skeleton_unfold (res _)), (skeleton_unfold t) in Hsk.
    injection Hsk as _ Hcl _.
    destruct (skeleton_named_child _ _ Hcl Hn) as (d & Hd & Hdn).
    assert (Hw : writes_text_identifier d = true).
    { destruct (res (push_at W [] t s)) as [nm0 cl pr i ci].
      cbn [identified checklist] in Hid', Hd.
      apply andb_true_iff in Hid'. destruct Hid' as [_ Hall].
      rewrite forallb_forall in Hall.
      exact (identified_writes _ d (Hall d Hd) Hdn). }
    unfold is_named in Hdn. destruct (named d) as [n|] eqn:Hnd; [|discriminate].
    apply (nested_entry_rejected _ n (Task_iter d)).
    + now apply (child_entry_in_iter _ d n).
    + now apply writes_text_identifier_rejected.
Qed.

Lemma pushed_document_cannot_be_read_back_witness :
  raises
    (Task_init None
       (VList (Task_iter (res (push demo example_tree demo_start))))).
Proof.
  apply (pushed_document_cannot_be_read_back demo example_tree demo_start None).
  - exact demo_text_identifiers.
  - reflexivity.
  - right. reflexivity.
Defined.

(** ** Where a push stops *)

Lemma paired_app l1 l2 : paired l1 -> paired l2 -> paired (l1 ++ l2).
Proof.
  induction 1; intros H2; cbn [app]; [exact H2 | |];
    econstructor; eauto.
Qed.

Section Stops.
Context (W : Outside).
Implicit Types s : state W.

Lemma stops_done s : stops_at_failure s s None.
Proof. exists []. rewrite app_nil_r. split; [reflexivity | constructor]. Qed.

Lemma stops_failed s s1 ev e :
  log s1 = log s ++ [ev] -> failed_call e ev ->
  stops_at_failure s s1 (Some e).
Proof.
  intros Hlog Hev. exists [ev]. split; [exact Hlog|].
  exists [], ev. repeat split; [constructor | exact Hev].
Qed.

Lemma stops_after_pair s s1 s' exc call assign :
  log s1 = (log s ++ [call]) ++ [assign] ->
  paired [call; assign] ->
  stops_at_failure s1 s' exc ->
  stops_at_failure s s' exc.
Proof.
  intros Hlog Hpair (new & Hnew & H).
  exists (call :: assign :: new). split.
  - rewrite Hnew, Hlog, <- !app_assoc. reflexivity.
  - destruct exc as [e|].
    + destruct H as (done & ev & -> & Hdone & Hev).
      exists (call :: assign :: done), ev. repeat split; [|exact Hev].
      exact (paired_app [call; assign] done Hpair Hdone).
    + exact (paired_app [call; assign] new Hpair H).
Qed.

Lemma stops_app s s1 s2 exc :
  stops_at_failure s s1 None -> stops_at_failure s1 s2 exc ->
  stops_at_failure s s2 exc.
Proof.
  intros (new1 & Hlog1 & H1) (new2 & Hlog2 & H2).
  exists (new1 ++ new2). split.
  - rewrite Hlog2, Hlog1, app_assoc. reflexivity.
  - destruct exc as [e|].
    + destruct H2 as (done & ev & -> & Hdone & Hev).
      exists (new1 ++ done), ev. rewrite app_assoc. repeat split;
        [now apply paired_app | exact Hev].
    + now apply paired_app.
Qed.

Lemma post_checklist_stops p v cl :
  forall k i s,
    stops_at_failure s (after (post_checklist W p v k i cl s))
      (raised (post_checklist W p v k i cl s)).
Proof.
  induction cl as [|c cl IH]; intros k i s; [apply stops_done|].
  cbn [post_checklist]. destruct (named c) as [text|]; [|apply IH].
  unfold post_checklist_item.
  destruct (tasks_checklist_post W v text (remote s)) as [r a].
  destruct r as [resp|e]; cbn [bind].
  - destruct (checklist_entry_id resp (S k)) as [cid|e] eqn:Hcid;
      cbn [res raised after].
    + eapply stops_after_pair; [| |apply IH].
      * reflexivity.
      * eapply paired_item; [exact Hcid | constructor].
    + eapply stops_failed; [reflexivity|]. right. now exists resp, (S k).
  - cbn [res raised after]. eapply stops_failed; [reflexivity|]. now left.
Qed.

Lemma push_each_stops push cl :
  Forall (fun c => forall q s,
              stops_at_failure s (after (push q c s)) (raised (push q c s)))
    cl ->
  forall p i s,
    stops_at_failure s (after (push_each W push p i cl s))
      (raised (push_each W push p i cl s)).
Proof.
  induction 1 as [|c cl Hc _ IH]; intros p i s; [apply stops_done|].
  cbn [push_each]. specialize (Hc (p ++ [i]) s).
  destruct (raised (push (p ++ [i]) c s)); cbn [res raised after];
    [exact Hc|].
  eapply stops_app; [exact Hc | apply IH].
Qed.

Lemma push_body_stops push n :
  (forall c q s, height c <= n ->
      stops_at_failure s (after (push q c s)) (raised (push q c s))) ->
  forall self p s,
    height self <= S n ->
    stops_at_failure s (after (push_body W push p self s))
      (raised (push_body W push p self s)).
Proof.
  intros Hpush self p s Hh. pose proof (height_children _ _ Hh) as Hcl.
  unfold push_body. destruct (named self) as [nm|].
  - unfold post_task.
    destruct (tasks_user_post W "todo" (nm ++ progress_marker) (note W)
                (py_str W (priority self)) (remote s)) as [r a].
    destruct r as [resp|e]; cbn [bind];
      [|cbn [res raised after]; eapply stops_failed; [reflexivity | now left]].
    destruct (getitem resp "id") as [v|e] eqn:Hid;
      [|cbn [res raised after]; eapply stops_failed;
        [reflexivity | right; now exists resp]].
    cbn [checklist set_checklist set_id id].
    match goal with
    | |- context [post_checklist W p v 0 0 (checklist self) ?s2] =>
        set (o1 := post_checklist W p v 0 0 (checklist self) s2);
        pose proof (post_checklist_stops p v (checklist self) 0 0 s2) as H1;
        pose proof (post_checklist_heights W p v (checklist self) 0 0 s2)
          as Hhs
    end.
    fold o1 in H1, Hhs.
    eapply stops_after_pair; cycle 2.
    + destruct (raised o1); cbn [res raised after]; [exact H1|].
      eapply stops_app; [exact H1|]. apply push_each_stops.
      eapply Forall_impl;
        [|exact (Forall_map_height (fun h => h <= n) _ _ Hhs Hcl)].
      intros c Hc q s'. now apply Hpush.
    + reflexivity.
    + eapply paired_task; [exact Hid | constructor].
  - cbn [res raised after]. apply push_each_stops.
    eapply Forall_impl; [|exact Hcl]. intros c Hc q s'. now apply Hpush.
Qed.

Lemma push_fuel_stops n :
  forall self p s,
    height self <= n ->
    stops_at_failure s (after (push_fuel W n p self s))
      (raised (push_fuel W n p self s)).
Proof.
  induction n as [|n IH]; intros self p s Hh.
  - destruct self; cbn [height] in Hh; lia.
  - cbn [push_fuel]. apply (push_body_stops _ n); [|exact Hh].
    intros c q s' Hc. now apply IH.
Qed.
End Stops.

(** X11.  A push stops at the first failure and tries nothing again.  In
    what it logs, every call was answered and is followed at once by the
    assignment of the identifier read in its answer; the only exception is
    the last call of a push that an exception ended, and that exception is
    the one the service raised for this call or the one raised while
    reading the identifier in its answer. *)
Theorem push_stops_at_first_failure :
  forall (W : Outside) (t : Task) (s : state W),
    exists new,
      log (after (push W t s)) = log s ++ new /\
      match raised (push W t s) with
      | None => paired new
      | Some e =>
          exists done ev,
            new = done ++ [ev] /\ paired done /\ failed_call e ev
      end.
Proof.
  intros W t s. apply (push_fuel_stops W (height t) t [] s). lia.
Qed.

(** ** The listing *)

Lemma string_app_nil_r (s : string) : (s ++ EmptyString)%string = s.
Proof. induction s as [|a s IH]; cbn; [reflexivity | now rewrite IH]. Qed.

Lemma string_app_assoc (a b c : string) :
  ((a ++ b) ++ c)%string = (a ++ (b ++ c))%string.
Proof. induction a as [|x a IH]; cbn; [reflexivity | now rewrite IH]. Qed.

Lemma concat_cons sep x l :
  l <> [] ->
  String.concat sep (x :: l) = (x ++ sep ++ String.concat sep l)%string.
Proof. destruct l; [congruence | reflexivity]. Qed.

Lemma concat_app sep l1 l2 :
  l1 <> [] -> l2 <> [] ->
  String.concat sep (l1 ++ l2)
  = (String.concat sep l1 ++ sep ++ String.concat sep l2)%string.
Proof.
  induction l1 as [|x l1 IH]; intros H1 H2; [congruence|].
  destruct l1 as [|y l1].
  - cbn [app]. now rewrite concat_cons.
  - change ((x :: y :: l1) ++ l2) with (x :: ((y :: l1) ++ l2)).
    rewrite concat_cons by discriminate.
    rewrite IH by (discriminate || assumption).
    rewrite (concat_cons sep x (y :: l1)) by discriminate.
    now rewrite !string_app_assoc.
Qed.

Lemma flat_map_nonempty {A B : Type} (f : A -> list B) l :
  l <> [] -> Forall (fun x => f x <> []) l -> flat_map f l <> [].
Proof.
  destruct l as [|x l]; [congruence|]. intros _ H.
  apply Forall_inv in H. cbn [flat_map]. destruct (f x); [congruence|].
  discriminate.
Qed.

Lemma concat_flat_map {A : Type} sep (f : A -> list string) l :
  Forall (fun x => f x <> []) l ->
  String.concat sep (flat_map f l)
  = String.concat sep (map (fun x => String.concat sep (f x)) l).
Proof.
  induction 1 as [|x l Hx Hl IH]; [reflexivity|].
  cbn [flat_map map]. destruct l as [|y l].
  - cbn [flat_map map]. now rewrite app_nil_r.
  - rewrite concat_app;
      [|exact Hx | apply flat_map_nonempty; [discriminate | exact Hl]].
    rewrite IH. now rewrite concat_cons by discriminate.
Qed.

Lemma line_nonempty str r : line str r <> EmptyString.
Proof. destruct r as [[|d] c]; unfold line; cbn; discriminate. Qed.

Lemma concat_lines_nonempty str rs :
  rs <> [] -> String.concat newline (map (line str) rs) <> EmptyString.
Proof.
  destruct rs as [|r rs]; [congruence|]. intros _ H.
  apply (line_nonempty str r). cbn [map] in H.
  destruct (map (line str) rs).
  - exact H.
  - cbn [String.concat] in H. destruct (line str r); [reflexivity|].
    discriminate.
Qed.

Lemma pretty_string_unfold str self ind :
  pretty_string str self ind =
  (let cl :=
     String.concat newline
       (map (fun x =>
               pretty_string str x
                 (ind + match name self with None => 0 | Some _ => 1 end))
          (checklist self)) in
   (times "    " ind
    ++ match name self with
       | None => EmptyString
       | Some n => "- " ++ n
       end
    ++ match name self with
       | None => EmptyString
       | Some _ => "(" ++ str (priority self) ++ ")"
       end)
   ++ (if String.eqb cl EmptyString then EmptyString
       else (if is_named self then newline else EmptyString) ++ cl))%string.
Proof. destruct self; reflexivity. Qed.

Lemma rows_unfold t ind :
  rows t ind =
  match name t with
  | Some _ => (ind, t) :: flat_map (fun c => rows c (S ind)) (checklist t)
  | None => flat_map (fun c => rows c ind) (checklist t)
  end.
Proof. destruct t; reflexivity. Qed.

Lemma named_below_unfold t :
  named_below t = forallb (fun c => is_named c && named_below c) (checklist t).
Proof. destruct t; reflexivity. Qed.

Lemma is_named_name t : is_named t = true -> exists n, name t = Some n.
Proof.
  unfold is_named, named. destruct (name t) as [n|]; [|discriminate].
  now exists n.
Qed.

(** The children of a task, all named and listed as the statement says,
    give the lines of their rows. *)
Lemma children_listed str cl d :
  Forall (fun c =>
            named_below c = true -> is_named c = true ->
            forall ind,
              pretty_string str c ind
              = String.concat newline (map (line str) (rows c ind)) /\
              rows c ind <> []) cl ->
  forallb (fun c => is_named c && named_below c) cl = true ->
  String.concat newline (map (fun x => pretty_string str x d) cl)
  = String.concat newline (map (line str) (flat_map (fun c => rows c d) cl))
  /\ (cl <> [] -> flat_map (fun c => rows c d) cl <> []).
Proof.
  intros IH Hcl.
  assert (Hall : Forall (fun c =>
                   pretty_string str c d
                   = String.concat newline (map (line str) (rows c d)) /\
                   rows c d <> []) cl).
  { rewrite forallb_forall in Hcl. rewrite Forall_forall in IH |- *.
    intros c Hin. specialize (Hcl c Hin). apply andb_true_iff in Hcl.
    destruct Hcl as [Hn Hb]. exact (IH c Hin Hb Hn d). }
  split.
  - rewrite flat_map_concat_map, concat_map, map_map,
      <- flat_map_concat_map.
    rewrite concat_flat_map.
    + f_equal. apply map_ext_Forall.
      eapply Forall_impl; [|exact Hall]. intros c [H _]. exact H.
    + eapply Forall_impl; [|exact Hall]. intros c [_ H] Hnil.
      apply map_eq_nil in Hnil. contradiction.
  - intros Hne. apply flat_map_nonempty; [exact Hne|].
    eapply Forall_impl; [|exact Hall]. intros c [_ H]. exact H.
Qed.

Lemma named_task_listed str :
  forall t,
    named_below t = true -> is_named t = true ->
    forall ind,
      pretty_string str t ind
      = String.concat newline (map (line str) (rows t ind)) /\
      rows t ind <> [].
Proof.
  induction t as [nm cl pr i ci IH] using Task_nested_ind.
  intros Hb Hn ind. rewrite named_below_unfold in Hb. cbn [checklist] in Hb.
  destruct (is_named_name _ Hn) as [n Hname]. cbn [name] in Hname. subst nm.
  rewrite pretty_string_unfold, rows_unfold. cbn [name checklist priority].
  rewrite Hn. split; [|discriminate].
  destruct (children_listed str cl (ind + 1) IH Hb) as [Hcl Hne].
  cbv zeta. rewrite Hcl. rewrite Nat.add_1_r in *.
  destruct cl as [|c cl].
  - cbn [flat_map map String.concat String.eqb]. unfold line.
    cbn [fst snd name priority].
    now rewrite string_app_nil_r, !string_app_assoc.
  - specialize (Hne ltac:(discriminate)).
    set (rs := flat_map (fun c0 => rows c0 (S ind)) (c :: cl)) in *.
    pose proof (concat_lines_nonempty str rs Hne) as Hlines.
    destruct (String.eqb_spec (String.concat newline (map (line str) rs))
                EmptyString) as [E|_]; [contradiction|].
    cbn [map]. rewrite concat_cons
      by (intros E; apply map_eq_nil in E; contradiction).
    unfold line at 2. cbn [fst snd name priority].
    now rewrite !string_app_assoc.
Qed.

(** X12.  The listing of a tree in which every task below the root has a
    name, the root having one or none, is made of one line for each of
    these tasks, in document order, separated by line breaks: four spaces
    for each named task above it, a dash, the name and the priority in
    brackets.  A root without a name is no level and gives no line, only
    the indentation the listing was asked for. *)
Theorem pretty_string_lists_named_tasks :
  forall (str : value -> string) (t : Task) (ind : nat),
    named_below t = true ->
    name t = None \/ is_named t = true ->
    pretty_string str t ind
    = ((match name t with
        | None => times "    " ind
        | Some _ => EmptyString
        end)
       ++ String.concat newline (map (line str) (rows t ind)))%string.
Proof.
  intros str t ind Hb [Hnone | Hn].
  - rewrite pretty_string_unfold, rows_unfold, Hnone.
    rewrite named_below_unfold in Hb.
    assert (IH : Forall (fun c =>
                   named_below c = true -> is_named c = true ->
                   forall ind,
                     pretty_string str c ind
                     = String.concat newline (map (line str) (rows c ind)) /\
                     rows c ind <> []) (checklist t)).
    { apply Forall_forall. intros c _. apply named_task_listed. }
    destruct (children_listed str (checklist t) (ind + 0) IH Hb) as [Hcl _].
    cbv zeta. rewrite Hcl. rewrite Nat.add_0_r.
    assert (Hroot : is_named t = false).
    { unfold is_named, named. now rewrite Hnone. }
    rewrite Hroot. cbn [append]. rewrite string_app_nil_r.
    destruct (String.eqb_spec
                (String.concat newline
                   (map (line str)
                      (flat_map (fun c => rows c ind) (checklist t))))
                EmptyString) as [E|_]; [now rewrite E | reflexivity].
  - destruct (is_named_name _ Hn) as [n Hname]. rewrite Hname.
    cbn [append]. apply named_task_listed; assumption.
Qed.

Lemma pretty_string_lists_named_tasks_witness :
  named_below example_tree = true /\
  (name example_tree = None \/ is_named example_tree = true) /\
  pretty_string demo_str example_tree 0
  = String.concat newline
      ["- Buy milk(1.0)";
       "- Clean house(2)";
       "    - Vacuum(1.0)";
       "    - Dishes(1.0)"].
Proof.
  split; [reflexivity|]. split; [now left|].
  rewrite (pretty_string_lists_named_tasks demo_str example_tree 0);
    [reflexivity | reflexivity | now left].
Defined.

(** ** The preview *)

Lemma concat_empty_cons x l :
  String.concat EmptyString (x :: l)
  = (x ++ String.concat EmptyString l)%string.
Proof.
  destruct l; [cbn [String.concat]; now rewrite string_app_nil_r|].
  reflexivity.
Qed.

Lemma concat_empty_app l1 l2 :
  String.concat EmptyString (l1 ++ l2)
  = (String.concat EmptyString l1 ++ String.concat EmptyString l2)%string.
Proof.
  induction l1 as [|x l1 IH]; [reflexivity|].
  cbn [app]. now rewrite !concat_empty_cons, IH, string_app_assoc.
Qed.

Lemma fold_left_append {A : Type} (f : A -> string) l :
  forall r,
    fold_left (fun res x => (res ++ f x)%string) l r
    = (r ++ String.concat EmptyString (map f l))%string.
Proof.
  induction l as [|x l IH]; intros r; cbn [fold_left map].
  - cbn [String.concat]. now rewrite string_app_nil_r.
  - now rewrite IH, concat_empty_cons, string_app_assoc.
Qed.

Lemma will_be_pushed_unfold M self :
  will_be_pushed M self =
  ((match named self with
    | Some _ =>
        task_heading M self
        ++ String.concat EmptyString
             (map (fun task => item_heading M (name task)) (checklist self))
    | None => EmptyString
    end)
   ++ String.concat EmptyString (map (will_be_pushed M) (checklist self))
  )%string.
Proof.
  destruct self as [nm cl pr i ci]. cbn [will_be_pushed checklist].
  rewrite (fold_left_append (will_be_pushed M)). f_equal.
  destruct (named _); [|reflexivity].
  now rewrite (fold_left_append (fun task => item_heading M (name task))).
Qed.

Lemma at_path_snoc root p c i :
  at_path root p = Some c ->
  at_path root (p ++ [i]) = nth_error (checklist c) i.
Proof.
  revert root. induction p as [|j p IH]; intros root H; cbn [app at_path] in *.
  - injection H as ->. now destruct (nth_error (checklist c) i).
  - destruct (nth_error (checklist root) j); [now apply IH | discriminate].
Qed.

Lemma nth_error_middle {A : Type} (pre : list A) x l :
  nth_error (pre ++ x :: l) (List.length pre) = Some x.
Proof. induction pre; [reflexivity | assumption]. Qed.

Lemma items_named_unfold t :
  items_named t =
  (if is_named t then forallb is_named (checklist t) else true)
  && forallb items_named (checklist t).
Proof. destruct t; reflexivity. Qed.

Section Preview.
Context (M : Messages) (root : Task).

Lemma items_announced p c :
  at_path root p = Some c ->
  forall cl pre,
    checklist c = pre ++ cl ->
    forallb is_named cl = true ->
    says M root (item_steps p (List.length pre) cl)
    = String.concat EmptyString
        (map (fun task => item_heading M (name task)) cl).
Proof.
  intros Hp. induction cl as [|x cl IH]; intros pre Hcl Hn; [reflexivity|].
  cbn [forallb] in Hn. apply andb_true_iff in Hn. destruct Hn as [Hx Hn].
  unfold says, item_steps in *. cbn [concat_indexed]. rewrite Hx.
  cbn [app map announced].
  rewrite (at_path_snoc root p c _ Hp), Hcl, nth_error_middle.
  rewrite !concat_empty_cons. cbn [append]. f_equal.
  specialize (IH (pre ++ [x])). rewrite length_app, Nat.add_1_r in IH.
  apply IH; [|exact Hn]. now rewrite <- app_assoc.
Qed.

Lemma children_announced p c :
  at_path root p = Some c ->
  forall cl pre,
    checklist c = pre ++ cl ->
    Forall (fun x =>
              forall q, at_path root q = Some x -> items_named x = true ->
                        will_be_pushed M x = says M root (preorder q x)) cl ->
    forallb items_named cl = true ->
    says M root (concat_indexed (fun i x => preorder (p ++ [i]) x)
           (List.length pre) cl)
    = String.concat EmptyString (map (will_be_pushed M) cl).
Proof.
  intros Hp. induction cl as [|x cl IH]; intros pre Hcl Hall Hn;
    [reflexivity|].
  cbn [forallb] in Hn. apply andb_true_iff in Hn. destruct Hn as [Hx Hn].
  inversion Hall as [|? ? Hhead Htail]; subst.
  unfold says in *. cbn [concat_indexed map].
  rewrite map_app, concat_empty_app, concat_empty_cons. f_equal.
  - symmetry. apply Hhead; [|exact Hx].
    now rewrite (at_path_snoc root p c _ Hp), Hcl, nth_error_middle.
  - specialize (IH (pre ++ [x])). rewrite length_app, Nat.add_1_r in IH.
    apply IH; [|exact Htail | exact Hn]. now rewrite <- app_assoc.
Qed.

Lemma preview_plan :
  forall c p,
    at_path root p = Some c -> items_named c = true ->
    will_be_pushed M c = says M root (preorder p c).
Proof.
  induction c as [nm cl pr i ci IH] using Task_nested_ind.
  intros p Hp Hn. rewrite items_named_unfold in Hn.
  apply andb_true_iff in Hn. destruct Hn as [Hitems Hbelow].
  rewrite will_be_pushed_unfold, preorder_unfold.
  unfold says. rewrite map_app, concat_empty_app. f_equal.
  - unfold is_named in *.
    destruct (named (mkTask nm cl pr i ci)) eqn:Hnamed; [|reflexivity].
    cbn [map announced]. rewrite Hp, !concat_empty_cons. cbn [append].
    f_equal. symmetry.
    exact (items_announced p _ Hp cl [] eq_refl Hitems).
  - symmetry. exact (children_announced p _ Hp cl [] eq_refl IH Hbelow).
Qed.
End Preview.

(** X13.  When every child of a named task is named, the preview says
    what the push does: put against the calls of a push that ends
    normally, in the order they were made, it is the heading of the task
    for each call that creates a task, followed by one line for each call
    that creates a checklist item, made of the name of the child, and
    nothing else. *)
Theorem preview_announces_the_calls :
  forall (W : Outside) (M : Messages) (t : Task) (s : state W),
    items_named t = true ->
    raised (push W t s) = None ->
    exists new,
      log (after (push W t s)) = log s ++ new /\
      will_be_pushed M t
      = String.concat EmptyString
          (map (fun e => announced M t (step_of e)) new).
Proof.
  intros W M t s Hn Hok.
  destruct (push_at_plan W [] t s) as [_ (new & rest & Hlog & Hplan & Hrest)].
  exists new. split; [exact Hlog|].
  rewrite (Hrest Hok), app_nil_r in Hplan.
  rewrite (preview_plan M t t [] eq_refl Hn). unfold says.
  rewrite <- Hplan, map_map. reflexivity.
Qed.

Lemma preview_announces_the_calls_witness :
  items_named example_tree = true /\
  raised (push demo example_tree demo_start) = None /\
  exists new,
    log (after (push demo example_tree demo_start))
    = log demo_start ++ new /\
    will_be_pushed (english demo_str) example_tree
    = String.concat EmptyString
        (map (fun e => announced (english demo_str) example_tree (step_of e))
           new).
Proof.
  split; [reflexivity|]. split; [reflexivity|].
  apply (preview_announces_the_calls demo (english demo_str) example_tree
           demo_start); reflexivity.
Defined.

(** ** The command [push] *)

(** X14.  Once the module parses (the bracket of line 105 removed), the
    command [push] never reaches the service and never ends normally.
    Whatever the file holds and whatever the user would answer, no call is
    made.  The run either returns 1 after printing that no tasks were
    found, the document being falsy, or is ended by an exception: the
    parser's, the constructor's, or the [AttributeError] of [is_new] for
    every document that is truthy and builds a tree.  In both cases
    [sys.stdout] and [sys.stderr] are left exchanged: what the parser
    wrote to [sys.stderr] went to the stream that was [sys.stdout] at the
    start, the one message of the command to the stream that was
    [sys.stderr], and nothing else was written. *)
Theorem push_command_never_reaches_the_service :
  forall (W : Outside) (H : Host) (M : Messages) (content : string)
         (c : console) (s : state W),
    let r := PushData_main W H M content c s in
    let warned :=
      printed c
      ++ map (fun text => (sys_stdout c, text)) (fst (yaml_load H content)) in
    world r = s /\
    sys_stdout (screen r) = sys_stderr c /\
    sys_stderr (screen r) = sys_stdout c /\
    ((exists d,
         snd (yaml_load H content) = Ok d /\ truthy d = false /\
         exit r = Ok (Some 1%Z) /\
         printed (screen r)
         = warned
           ++ [(sys_stderr c,
                (gettext H "Tasks not found. Exiting." ++ newline)%string)])
     \/
     (exists e,
         exit r = Err e /\ printed (screen r) = warned /\
         forall d t,
           snd (yaml_load H content) = Ok d -> Task_init None d = Ok t ->
           e = AttributeError "checklists")).
Proof.
  intros W H M content c s r warned. subst r warned. unfold PushData_main.
  destruct (yaml_load H content) as [warnings [d|e]] eqn:Hload;
    cbn [fst snd].
  - destruct (truthy d) eqn:Hd; cbn [negb].
    + destruct (Task_init None d) as [t|e] eqn:Hinit.
      * assert (Hnew : is_new t = Err (AttributeError "checklists"))
          by (destruct t; reflexivity).
        rewrite Hnew. cbn. repeat split. right.
        exists (AttributeError "checklists"). repeat split.
      * cbn. repeat split. right. exists e. repeat split.
        intros d' t' Hd' Ht'. injection Hd' as <-. congruence.
    + cbn. repeat split. left. exists d. repeat split. exact Hd.
  - cbn. repeat split. right. exists e. repeat split.
    intros d t Hd. discriminate.
Qed.
